(** * A bounded, blocking FIFO queue (lab.c): model and verification

    The development embeds [lab.c] — a fixed-capacity circular buffer
    protected by one pthread mutex and two condition variables — and
    proves the properties its specification states.

    Layout of the file:
    - machine integers and C undefined behaviour;
    - the [struct queue] and the five operations, each written as the
      code between [pthread_mutex_lock] and the first point at which the
      caller either suspends in [pthread_cond_wait] or unlocks;
    - a sequential driver (one caller, operations one after the other);
    - a thread-level step relation with the mutex, the two condition
      variables and spurious wake-ups;
    - [queue_destroy], schedules of the step relation, and the
      bookkeeping of wake-ups;
    - the theorems. *)

From Stdlib Require Import ZArith Lia.
From stdpp Require Import base tactics option list gmap strings.

Local Open Scope Z_scope.

(** ** Machine integers and undefined behaviour *)

(** [void *] values are modelled by their address; [NULL] is address 0. *)
Definition ptr : Type := Z.
Definition NULL : ptr := 0.

(** [int] is the 32-bit two's-complement type of the LP64 data model. *)
Definition INT_MAX : Z := 2147483647.
Definition INT_MIN : Z := -2147483648.

Definition is_int (z : Z) : bool := (INT_MIN <=? z) && (z <=? INT_MAX).

(** A computation that may run into C undefined behaviour. *)
Inductive res (A : Type) : Type :=
| Ok (a : A)
| UB.
Arguments Ok {A} a.
Arguments UB {A}.

#[global] Instance res_ret : MRet res := fun _ a => Ok a.
#[global] Instance res_bind : MBind res := fun _ _ f m =>
  match m with
  | Ok a => f a
  | UB => UB
  end.

(** Signed [+] and [-]: overflow is undefined. *)
Definition int_add (a b : Z) : res Z :=
  if is_int (a + b) then Ok (a + b) else UB.

Definition int_sub (a b : Z) : res Z :=
  if is_int (a - b) then Ok (a - b) else UB.

(** Signed [%]: truncating remainder; a zero divisor, and [INT_MIN % -1],
    are undefined. *)
Definition int_rem (a b : Z) : res Z :=
  if b =? 0 then UB
  else if (a =? INT_MIN) && (b =? -1) then UB
  else Ok (Z.rem a b).

(** [buffer[i]] as an rvalue and as an lvalue; an index outside the
    allocated block is undefined. *)
Definition load (b : list ptr) (i : Z) : res ptr :=
  if (0 <=? i) && (i <? Z.of_nat (length b))
  then match b !! Z.to_nat i with
       | Some x => Ok x
       | None => UB
       end
  else UB.

Definition store (b : list ptr) (i : Z) (x : ptr) : res (list ptr) :=
  if (0 <=? i) && (i <? Z.of_nat (length b))
  then Ok (<[Z.to_nat i := x]> b)
  else UB.

(** ** The queue structure *)

(** The data fields of [struct queue].  The mutex and the two condition
    variables of the struct live in the thread-level state below
    ([system]): a condition variable is the set of threads suspended on
    it, the mutex is its owner. *)
Module Q.
Record queue : Type := mk {
  buffer : list ptr;
  capacity : Z;
  size : Z;
  front : Z;
  rear : Z;
  is_shutdown : bool
}.
End Q.
Abbreviation queue := Q.queue.

(** The two condition variables of the struct. *)
Inductive cond : Type := not_full | not_empty.

#[global] Instance cond_eq_dec : EqDecision cond.
Proof. solve_decision. Defined.

(** Wake-up requests issued while the mutex is held. *)
Inductive wake : Type :=
| pthread_cond_signal (c : cond)
| pthread_cond_broadcast (c : cond).

(** What a caller that has just acquired the mutex does next: it either
    suspends in [pthread_cond_wait] (the queue is untouched and the mutex
    released), or runs to [pthread_mutex_unlock] with a new queue state,
    the wake-ups it issued on the way, and its return value; or the
    execution is undefined.  When a suspended caller is woken and has the
    mutex again it is back at the [while] test, which is where the
    functions below start. *)
Inductive section (A : Type) : Type :=
| cond_wait (c : cond)
| unlock (q' : queue) (w : list wake) (r : A)
| undefined.
Arguments cond_wait {A} c.
Arguments unlock {A} q' w r.
Arguments undefined {A}.

Definition from_res {A} (m : res (section A)) : section A :=
  match m with
  | Ok s => s
  | UB => undefined
  end.

(** ** Allocation *)

(** [size_t] is 64 bits wide and a pointer takes 8 bytes (LP64). *)
Definition SIZE_WIDTH : Z := 64.
Definition sizeof_ptr : Z := 8.

(** The argument of the second [malloc], [capacity * sizeof(void* )]:
    [capacity] is converted to [size_t] and the product wraps. *)
Definition buffer_bytes (capacity : Z) : Z :=
  ((capacity mod 2 ^ SIZE_WIDTH) * sizeof_ptr) mod 2 ^ SIZE_WIDTH.

Definition buffer_slots (capacity : Z) : nat :=
  Z.to_nat (buffer_bytes capacity / sizeof_ptr).

(** What the allocator answers to the two [malloc] calls of
    [queue_init]: whether each succeeds, and the indeterminate contents
    of the fresh buffer. *)
Record allocator : Type := {
  struct_ok : bool;
  buffer_ok : bool;
  garbage : nat → ptr
}.

(** The heap is the set of live blocks. *)
Definition heap : Type := gset nat.

Definition malloc (ok : bool) (h : heap) : option nat * heap :=
  if ok then let b := fresh h in (Some b, {[b]} ∪ h) else (None, h).

Definition free (b : nat) (h : heap) : heap := h ∖ {[b]}.

(** ** The operations of lab.c

    [queue_init] also initialises the mutex and the two condition
    variables; in the model that is the initial [system] below, with the
    mutex unowned and nobody suspended. *)

Definition queue_init (a : allocator) (capacity : Z) (h : heap)
  : option queue * heap :=
  match malloc (struct_ok a) h with
  | (None, h1) => (None, h1)
  | (Some pq, h1) =>
    match malloc (buffer_ok a) h1 with
    | (None, h2) => (None, free pq h2)
    | (Some _, h2) =>
      (Some {| Q.buffer := garbage a <$> seq 0 (buffer_slots capacity);
               Q.capacity := capacity;
               Q.size := 0;
               Q.front := 0;
               Q.rear := -1;
               Q.is_shutdown := false |}, h2)
    end
  end.

Definition enqueue (q : queue) (data : ptr) : section unit :=
  if (Q.size q =? Q.capacity q) && negb (Q.is_shutdown q)
  then cond_wait not_full
  else if Q.is_shutdown q then unlock q [] tt
  else from_res (
    s ← int_add (Q.rear q) 1;
    r ← int_rem s (Q.capacity q);
    b ← store (Q.buffer q) r data;
    n ← int_add (Q.size q) 1;
    mret (unlock {| Q.buffer := b;
                    Q.capacity := Q.capacity q;
                    Q.size := n;
                    Q.front := Q.front q;
                    Q.rear := r;
                    Q.is_shutdown := Q.is_shutdown q |}
                 [pthread_cond_signal not_empty] tt)).

Definition dequeue (q : queue) : section ptr :=
  if (Q.size q =? 0) && negb (Q.is_shutdown q)
  then cond_wait not_empty
  else if Q.size q =? 0 then unlock q [] NULL
  else from_res (
    data ← load (Q.buffer q) (Q.front q);
    s ← int_add (Q.front q) 1;
    f ← int_rem s (Q.capacity q);
    n ← int_sub (Q.size q) 1;
    mret (unlock {| Q.buffer := Q.buffer q;
                    Q.capacity := Q.capacity q;
                    Q.size := n;
                    Q.front := f;
                    Q.rear := Q.rear q;
                    Q.is_shutdown := Q.is_shutdown q |}
                 [pthread_cond_signal not_full] data)).

Definition queue_shutdown (q : queue) : section unit :=
  unlock {| Q.buffer := Q.buffer q;
            Q.capacity := Q.capacity q;
            Q.size := Q.size q;
            Q.front := Q.front q;
            Q.rear := Q.rear q;
            Q.is_shutdown := true |}
         [pthread_cond_broadcast not_empty; pthread_cond_broadcast not_full]
         tt.

(** What [queue_shutdown] writes to [stderr] after it has unlocked. *)
Definition shutdown_notice : string :=
  "Shutdown requested!" +:+ String (Ascii.ascii_of_nat 10) EmptyString.

Definition is_empty (q : queue) : section bool :=
  unlock q [] (Q.size q =? 0).

Definition is_shutdown (q : queue) : section bool :=
  unlock q [] (Q.is_shutdown q).

(** ** One caller, one operation after the other *)

Inductive op : Type :=
| Enqueue (data : ptr)
| Dequeue
| Shutdown
| IsEmpty
| IsShutdown.

Inductive retval : Type :=
| RVoid
| RPtr (p : ptr)
| RBool (b : bool).

Definition returning {A} (f : A → retval) (s : section A) : section retval :=
  match s with
  | cond_wait c => cond_wait c
  | unlock q' w r => unlock q' w (f r)
  | undefined => undefined
  end.

(** The critical section of each entry point, with its C return value. *)
Definition body (o : op) (q : queue) : section retval :=
  match o with
  | Enqueue data => returning (λ _, RVoid) (enqueue q data)
  | Dequeue => returning RPtr (dequeue q)
  | Shutdown => returning (λ _, RVoid) (queue_shutdown q)
  | IsEmpty => returning RBool (is_empty q)
  | IsShutdown => returning RBool (is_shutdown q)
  end.

(** What the entry point does between unlocking and returning. *)
Definition epilogue (o : op) : list string :=
  match o with
  | Shutdown => [shutdown_notice]
  | _ => []
  end.

(** How a sequence of calls made by a single thread ends: every call
    returned; or the thread is suspended for good on a condition variable
    (nobody else is there to wake it); or a call was undefined. *)
Inductive status : Type :=
| Finished
| Blocked (c : cond)
| Undefined.

Record trace : Type := {
  final : queue;
  returned : list retval;
  printed : list string;
  ended : status
}.

Fixpoint run (q : queue) (ops : list op) : trace :=
  match ops with
  | [] => {| final := q; returned := []; printed := []; ended := Finished |}
  | o :: rest =>
    match body o q with
    | cond_wait c =>
      {| final := q; returned := []; printed := []; ended := Blocked c |}
    | undefined =>
      {| final := q; returned := []; printed := []; ended := Undefined |}
    | unlock q' _ r =>
      let t := run q' rest in
      {| final := final t;
         returned := r :: returned t;
         printed := epilogue o ++ printed t;
         ended := ended t |}
    end
  end.

(** ** Representation invariant and abstraction *)

(** The slot of the [i]-th resident item, counted from the front. *)
Definition slot (q : queue) (i : nat) : nat :=
  Z.to_nat ((Q.front q + Z.of_nat i) mod Q.capacity q).

(** The resident items, oldest first: the cells at
    [front, front+1, ..., front+size-1] modulo [capacity]. *)
Definition contents (q : queue) : list ptr :=
  (λ i, default NULL (Q.buffer q !! slot q i)) <$> seq 0 (Z.to_nat (Q.size q)).

Definition wf (q : queue) : Prop :=
  0 < Q.capacity q ≤ INT_MAX ∧
  length (Q.buffer q) = Z.to_nat (Q.capacity q) ∧
  0 ≤ Q.size q ≤ Q.capacity q ∧
  0 ≤ Q.front q < Q.capacity q ∧
  ((Q.rear q = -1 ∧ Q.front q = 0 ∧ Q.size q = 0) ∨
   Q.rear q = (Q.front q + Q.size q - 1) mod Q.capacity q).

(** A freshly constructed queue, when both allocations succeed. *)
Definition fresh_queue (g : nat → ptr) (capacity : Z) : queue :=
  {| Q.buffer := g <$> seq 0 (buffer_slots capacity);
     Q.capacity := capacity;
     Q.size := 0;
     Q.front := 0;
     Q.rear := -1;
     Q.is_shutdown := false |}.

(** ** The specification's queue: a list of live items and a flag *)

(** The abstract queue of the specification: the items accepted and not
    yet removed, oldest first, and whether shutdown was requested. *)
Record fifo : Type := {
  items : list ptr;
  closed : bool
}.

(** One call on the abstract queue of capacity [C]: [None] when the call
    suspends. *)
Definition fifo_call (C : Z) (o : op) (a : fifo) : option (fifo * retval) :=
  match o with
  | Enqueue x =>
    if closed a then Some (a, RVoid)
    else if Z.of_nat (length (items a)) <? C
    then Some ({| items := items a ++ [x]; closed := false |}, RVoid)
    else None
  | Dequeue =>
    match items a with
    | x :: rest => Some ({| items := rest; closed := closed a |}, RPtr x)
    | [] => if closed a then Some (a, RPtr NULL) else None
    end
  | Shutdown => Some ({| items := items a; closed := true |}, RVoid)
  | IsEmpty => Some (a, RBool (bool_decide (items a = [])))
  | IsShutdown => Some (a, RBool (closed a))
  end.

(** The live items after a sequence of calls, stopping at the first call
    that suspends. *)
Fixpoint fifo_run (C : Z) (a : fifo) (ops : list op) : fifo :=
  match ops with
  | [] => a
  | o :: rest =>
    match fifo_call C o a with
    | Some (a', _) => fifo_run C a' rest
    | None => a
    end
  end.

Definition abstraction (q : queue) : fifo :=
  {| items := contents q; closed := Q.is_shutdown q |}.


(** ** Closed forms of the state changes

    On a well-formed queue the three mutating critical sections compute
    the states below ([enqueue_eq], [dequeue_eq], [queue_shutdown_eq]). *)

(** The state an accepted [enqueue] leaves behind. *)
Definition pushed (q : queue) (data : ptr) : queue :=
  let r := (Q.front q + Q.size q) mod Q.capacity q in
  {| Q.buffer := <[Z.to_nat r := data]> (Q.buffer q);
     Q.capacity := Q.capacity q;
     Q.size := Q.size q + 1;
     Q.front := Q.front q;
     Q.rear := r;
     Q.is_shutdown := Q.is_shutdown q |}.

(** The state a [dequeue] of a non-empty queue leaves behind. *)
Definition popped (q : queue) : queue :=
  {| Q.buffer := Q.buffer q;
     Q.capacity := Q.capacity q;
     Q.size := Q.size q - 1;
     Q.front := (Q.front q + 1) mod Q.capacity q;
     Q.rear := Q.rear q;
     Q.is_shutdown := Q.is_shutdown q |}.

Definition head_item (q : queue) : ptr :=
  default NULL (Q.buffer q !! Z.to_nat (Q.front q)).

(** The state [queue_shutdown] leaves behind. *)
Definition shut (q : queue) : queue :=
  {| Q.buffer := Q.buffer q;
     Q.capacity := Q.capacity q;
     Q.size := Q.size q;
     Q.front := Q.front q;
     Q.rear := Q.rear q;
     Q.is_shutdown := true |}.

(** ** Reachable queues *)

(** The queues a single caller can observe: constructed by [queue_init]
    with [capacity], then used through any sequence of calls. *)
Definition reachable (capacity : Z) (q : queue) : Prop :=
  ∃ (a : allocator) (h h' : heap) (q0 : queue) (history : list op),
    queue_init a capacity h = (Some q0, h') ∧ q = final (run q0 history).

(** An allocator that grants both requests and hands out cells holding
    the address [0xDEAD]. *)
Definition generous : allocator :=
  {| struct_ok := true; buffer_ok := true; garbage := λ _, 57005 |}.

(** ** Threads, the mutex and the condition variables *)

(** Where a thread stands inside the call it is making. *)
Inductive pc : Type :=
| AtLock               (* in [pthread_mutex_lock], on entry or while
                          re-acquiring the mutex inside [pthread_cond_wait] *)
| InSection            (* owns the mutex, at the [while] test *)
| Suspended (c : cond) (* inside [pthread_cond_wait], mutex released *)
| Unlocked (r : retval)(* past [pthread_mutex_unlock], before [return] *)
| Returned (r : retval).

Record thread : Type := {
  call : op;
  at_pc : pc
}.

Definition move (th : thread) (p : pc) : thread :=
  {| call := call th; at_pc := p |}.

(** The queue shared by the threads, the owner of its mutex, the threads
    that are inside a call on it, and what was written to [stderr]. *)
Record system : Type := {
  shared : queue;
  mutex : option nat;
  threads : list thread;
  stderr : list string
}.

(** A thread suspended on [c] that is woken goes on to re-acquire the
    mutex; a wake-up on [c] leaves every other thread alone. *)
Definition wake_thread (c : cond) (th : thread) : thread :=
  match at_pc th with
  | Suspended c' => if decide (c = c') then move th AtLock else th
  | _ => th
  end.

(** [pthread_cond_broadcast]: every thread suspended on [c] is woken. *)
Definition broadcast (c : cond) (ths : list thread) : list thread :=
  wake_thread c <$> ths.

(** [pthread_cond_signal]: one of the threads suspended on [c] is woken,
    whichever; nothing happens when there is none.  (POSIX allows more
    than one to be woken: that is a signal followed by spurious
    wake-ups, [step_spurious] below.) *)
Inductive signalled (c : cond) : list thread → list thread → Prop :=
| signal_nobody ths :
    (∀ t th, ths !! t = Some th → at_pc th ≠ Suspended c) →
    signalled c ths ths
| signal_one ths t th :
    ths !! t = Some th → at_pc th = Suspended c →
    signalled c ths (<[t := move th AtLock]> ths).

Inductive woken : list wake → list thread → list thread → Prop :=
| woken_nil ths : woken [] ths ths
| woken_signal c w ths ths1 ths2 :
    signalled c ths ths1 → woken w ths1 ths2 →
    woken (pthread_cond_signal c :: w) ths ths2
| woken_broadcast c w ths ths2 :
    woken w (broadcast c ths) ths2 →
    woken (pthread_cond_broadcast c :: w) ths ths2.

Inductive label : Type :=
| Lock (t : nat)
| Wait (t : nat) (c : cond)
| Unlock (t : nat)
| Spurious (t : nat)
| Return (t : nat).

(** One scheduling step of one thread. *)
Inductive step : system → label → system → Prop :=
| step_lock s t th :
    threads s !! t = Some th → at_pc th = AtLock → mutex s = None →
    step s (Lock t)
         {| shared := shared s; mutex := Some t;
            threads := <[t := move th InSection]> (threads s);
            stderr := stderr s |}
| step_wait s t th c :
    threads s !! t = Some th → at_pc th = InSection → mutex s = Some t →
    body (call th) (shared s) = cond_wait c →
    step s (Wait t c)
         {| shared := shared s; mutex := None;
            threads := <[t := move th (Suspended c)]> (threads s);
            stderr := stderr s |}
| step_unlock s t th q' w r ths' :
    threads s !! t = Some th → at_pc th = InSection → mutex s = Some t →
    body (call th) (shared s) = unlock q' w r →
    woken w (<[t := move th (Unlocked r)]> (threads s)) ths' →
    step s (Unlock t)
         {| shared := q'; mutex := None; threads := ths'; stderr := stderr s |}
| step_spurious s t th c :
    threads s !! t = Some th → at_pc th = Suspended c →
    step s (Spurious t)
         {| shared := shared s; mutex := mutex s;
            threads := <[t := move th AtLock]> (threads s);
            stderr := stderr s |}
| step_return s t th r :
    threads s !! t = Some th → at_pc th = Unlocked r →
    step s (Return t)
         {| shared := shared s; mutex := mutex s;
            threads := <[t := move th (Returned r)]> (threads s);
            stderr := stderr s ++ epilogue (call th) |}.

(** Executions of [n] steps. *)
Inductive steps : nat → system → system → Prop :=
| steps_O s : steps 0 s s
| steps_S n s l s1 s2 : step s l s1 → steps n s1 s2 → steps (S n) s s2.

(** The mutex is owned by exactly the thread that is in its critical
    section, and the queue is well formed. *)
Definition sys_wf (s : system) : Prop :=
  wf (shared s) ∧
  ∀ t, mutex s = Some t ↔
       ∃ th, threads s !! t = Some th ∧ at_pc th = InSection.

Definition nobody_suspended (ths : list thread) : Prop :=
  ∀ t th c, ths !! t = Some th → at_pc th ≠ Suspended c.

(** Shutdown has been requested and has woken everybody. *)
Definition draining (s : system) : Prop :=
  Q.is_shutdown (shared s) = true ∧ nobody_suspended (threads s).

(** Steps a thread still has to take before its call has returned, once
    the queue is draining. *)
Definition remaining (th : thread) : nat :=
  match at_pc th with
  | Suspended _ => 4
  | AtLock => 3
  | InSection => 2
  | Unlocked _ => 1
  | Returned _ => 0
  end.

Definition work (s : system) : nat := sum_list (remaining <$> threads s).

Definition all_returned (s : system) : Prop :=
  ∀ t th, threads s !! t = Some th → ∃ r, at_pc th = Returned r.

(** How a thread list changes under wake-ups: same threads, same calls,
    and a program point changes only from [Suspended] to [AtLock]. *)
Definition woken_from (ths ths' : list thread) : Prop :=
  length ths' = length ths ∧
  ∀ t th', ths' !! t = Some th' →
    ∃ th, ths !! t = Some th ∧ call th' = call th ∧
          (at_pc th' = at_pc th ∨
           ((∃ c, at_pc th = Suspended c) ∧ at_pc th' = AtLock)).


(** ** A scenario

    Capacity 1, one resident item; an enqueuer suspended on the full
    queue; a dequeuer still suspended from when the queue was empty; and
    a thread inside [queue_shutdown], owning the mutex. *)
Definition full_one : queue := pushed (fresh_queue (garbage generous) 1) 11.

Definition blocked_system : system :=
  {| shared := full_one;
     mutex := Some 2%nat;
     threads := [ {| call := Enqueue 22; at_pc := Suspended not_full |};
                  {| call := Dequeue; at_pc := Suspended not_empty |};
                  {| call := Shutdown; at_pc := InSection |} ];
     stderr := [] |}.

Definition woken_system : system :=
  {| shared := shut full_one;
     mutex := None;
     threads := [ {| call := Enqueue 22; at_pc := AtLock |};
                  {| call := Dequeue; at_pc := AtLock |};
                  {| call := Shutdown; at_pc := Unlocked RVoid |} ];
     stderr := [] |}.

(** ** What goes in and what comes out *)

#[global] Instance op_eq_dec : EqDecision op.
Proof. solve_decision. Defined.

(** The arguments of the Enqueue calls of a sequence, in call order. *)
Definition enq_args (ops : list op) : list ptr :=
  omap (λ o, match o with Enqueue x => Some x | _ => None end) ops.

(** The pointers a sequence of calls returned, in call order: the results
    of its Dequeue calls. *)
Definition deq_results (rs : list retval) : list ptr :=
  omap (λ r, match r with RPtr p => Some p | _ => None end) rs.

(** The Shutdown calls among the first [n] calls of a sequence. *)
Definition shutdowns (n : nat) (ops : list op) : nat :=
  length (filter (λ o, o = Shutdown) (take n ops)).

(** ** Destruction *)

(** What a [queue_t] points to in the heap: the block of the struct and
    the block of its buffer. *)
Record handle : Type := {
  h_struct : nat;
  h_buffer : nat
}.

(** The blocks the two [malloc] calls of [queue_init] return. *)
Definition queue_blocks (a : allocator) (h : heap) : option handle :=
  match malloc (struct_ok a) h with
  | (None, _) => None
  | (Some pq, h1) =>
    match malloc (buffer_ok a) h1 with
    | (None, _) => None
    | (Some pb, _) => Some {| h_struct := pq; h_buffer := pb |}
    end
  end.

(** [free(p)] of a block that is not live is undefined. *)
Definition free_live (b : nat) (h : heap) : res heap :=
  if decide (b ∈ h) then Ok (free b h) else UB.

Definition suspended_at (c : cond) (th : thread) : bool :=
  match at_pc th with
  | Suspended c' => bool_decide (c = c')
  | _ => false
  end.

(** [pthread_mutex_destroy] of a locked mutex and [pthread_cond_destroy]
    of a condition variable some thread is suspended on are undefined;
    their return values are ignored. *)
Definition pthread_mutex_destroy (s : system) : res unit :=
  match mutex s with
  | None => Ok tt
  | Some _ => UB
  end.

Definition pthread_cond_destroy (c : cond) (s : system) : res unit :=
  if existsb (suspended_at c) (threads s) then UB else Ok tt.

(** [queue_destroy]: [None] is the [NULL] handle. *)
Definition queue_destroy (q : option handle) (s : system) (h : heap)
  : res heap :=
  match q with
  | None => Ok h
  | Some hd =>
    _ ← pthread_mutex_destroy s;
    _ ← pthread_cond_destroy not_full s;
    _ ← pthread_cond_destroy not_empty s;
    h1 ← free_live (h_buffer hd) h;
    free_live (h_struct hd) h1
  end.

(** ** Executions with their schedule *)

#[global] Instance retval_eq_dec : EqDecision retval.
Proof. solve_decision. Defined.

#[global] Instance pc_eq_dec : EqDecision pc.
Proof. solve_decision. Defined.





(** The system right after construction: nobody owns the mutex, and every
    thread is about to enter the call it makes. *)
Definition initial (q0 : queue) (calls : list op) : system :=
  {| shared := q0; mutex := None;
     threads := (λ o, {| call := o; at_pc := AtLock |}) <$> calls;
     stderr := [] |}.

(** ** Wake-ups are not lost *)

(** The calls that can suspend on a condition. *)
Definition waits_in (c : cond) (o : op) : bool :=
  match c, o with
  | not_full, Enqueue _ => true
  | not_empty, Dequeue => true
  | _, _ => false
  end.

Definition other (c : cond) : cond :=
  match c with
  | not_full => not_empty
  | not_empty => not_full
  end.

(** What a caller suspended on a condition is waiting for: free cells
    for [not_full], resident items for [not_empty]. *)
Definition supply (c : cond) (q : queue) : Z :=
  match c with
  | not_full => Q.capacity q - Q.size q
  | not_empty => Q.size q
  end.

(** A thread that is awake and on its way into the critical section of a
    call that may suspend on [c]. *)
Definition contender (c : cond) (th : thread) : nat :=
  if waits_in c (call th)
  then match at_pc th with
       | AtLock | InSection => 1
       | _ => 0
       end
  else 0.

Definition contenders (c : cond) (ths : list thread) : nat :=
  sum_list (contender c <$> ths).

Definition suspended_on (c : cond) (ths : list thread) : Prop :=
  ∃ t th, ths !! t = Some th ∧ at_pc th = Suspended c.

(** While a thread is suspended on a condition, the queue is open, the
    thread is inside a call that waits on that condition, and everything
    it could be waiting for is already spoken for by a thread that is
    awake: no wake-up has been lost. *)
Definition no_lost_wakeup (s : system) : Prop :=
  (∀ t th c, threads s !! t = Some th → at_pc th = Suspended c →
     waits_in c (call th) = true ∧ Q.is_shutdown (shared s) = false) ∧
  (∀ c, suspended_on c (threads s) →
     supply c (shared s) ≤ Z.of_nat (contenders c (threads s))).

(** Nobody is awake inside a call: every thread is suspended or has
    returned. *)
Definition quiescent (s : system) : Prop :=
  ∀ t th, threads s !! t = Some th →
    (∃ c, at_pc th = Suspended c) ∨ (∃ r, at_pc th = Returned r).

(** ** A schedule

    Two threads on a queue of capacity 1: the consumer gets the mutex
    first and suspends on the empty queue; the producer enqueues and its
    signal wakes the consumer, which then dequeues; both return. *)
Definition handoff_start : system :=
  initial (fresh_queue (garbage generous) 1) [Enqueue 11; Dequeue].

(** * Proofs *)

(** ** Arithmetic of the circular indices *)

Lemma is_int_true z : INT_MIN ≤ z ≤ INT_MAX → is_int z = true.
Proof. unfold is_int. intros [? ?]. apply andb_true_intro. split; lia. Qed.

Lemma int_add_ok a b : INT_MIN ≤ a + b ≤ INT_MAX → int_add a b = Ok (a + b).
Proof. intros H. unfold int_add. by rewrite is_int_true. Qed.

Lemma int_sub_ok a b : INT_MIN ≤ a - b ≤ INT_MAX → int_sub a b = Ok (a - b).
Proof. intros H. unfold int_sub. by rewrite is_int_true. Qed.

(** On a non-negative dividend and a positive divisor C's [%] is the
    mathematical modulus. *)
Lemma int_rem_ok a b : 0 ≤ a → 0 < b → int_rem a b = Ok (a mod b).
Proof.
  intros Ha Hb. unfold int_rem.
  destruct (Z.eqb_spec b 0) as [->|_]; [lia|].
  destruct (Z.eqb_spec a INT_MIN) as [->|_]; [unfold INT_MIN in Ha; lia|].
  simpl. f_equal. apply Z.rem_mod_nonneg; lia.
Qed.

Lemma load_ok (b : list ptr) i x :
  0 ≤ i → b !! Z.to_nat i = Some x → load b i = Ok x.
Proof.
  intros Hi Hx. unfold load.
  pose proof (lookup_lt_Some _ _ _ Hx) as Hlt.
  replace ((0 <=? i) && (i <? Z.of_nat (length b))) with true.
  - by rewrite Hx.
  - symmetry. apply andb_true_intro. split; lia.
Qed.

Lemma store_ok (b : list ptr) i x :
  0 ≤ i < Z.of_nat (length b) → store b i x = Ok (<[Z.to_nat i := x]> b).
Proof.
  intros Hi. unfold store.
  replace ((0 <=? i) && (i <? Z.of_nat (length b))) with true; [done|].
  symmetry. apply andb_true_intro. split; lia.
Qed.

(** Two offsets less than [c] apart never fall on the same slot. *)
Lemma mod_offsets_ne f c i j :
  0 < c → 0 ≤ i < j → j < c → (f + i) mod c ≠ (f + j) mod c.
Proof.
  intros Hc Hij Hj Heq.
  assert (((f + j) - (f + i)) mod c = 0) as H0.
  { rewrite Zminus_mod, Heq, Z.sub_diag. by apply Z.mod_0_l; lia. }
  replace ((f + j) - (f + i)) with (j - i) in H0 by lia.
  rewrite Z.mod_small in H0; lia.
Qed.

Lemma mod_succ_shift f c k : 0 < c → ((f + 1) mod c + k) mod c = (f + (1 + k)) mod c.
Proof. intros Hc. rewrite Zplus_mod_idemp_l. f_equal. lia. Qed.

(** ** The abstraction *)

Lemma contents_length q : length (contents q) = Z.to_nat (Q.size q).
Proof. unfold contents. by rewrite length_fmap, length_seq. Qed.

Lemma contents_nil q : Q.size q ≤ 0 → contents q = [].
Proof.
  intros H. unfold contents. by replace (Z.to_nat (Q.size q)) with 0%nat by lia.
Qed.

Lemma contents_lookup q (i : nat) :
  (i < Z.to_nat (Q.size q))%nat →
  contents q !! i = Some (default NULL (Q.buffer q !! slot q i)).
Proof.
  intros Hi. unfold contents. rewrite list_lookup_fmap.
  by rewrite lookup_seq_lt.
Qed.

Lemma slot_lt q i : wf q → (slot q i < length (Q.buffer q))%nat.
Proof.
  intros (Hc & Hlen & _). unfold slot. rewrite Hlen.
  pose proof (Z.mod_pos_bound (Q.front q + Z.of_nat i) (Q.capacity q)).
  lia.
Qed.

(** The slots of the resident items are pairwise different: no cell
    holds two live items. *)
Lemma slot_inj q i j :
  wf q → (i < Z.to_nat (Q.size q))%nat → (j < Z.to_nat (Q.size q))%nat →
  slot q i = slot q j → i = j.
Proof.
  intros (Hc & _ & Hs & _) Hi Hj Heq. unfold slot in Heq.
  apply Z2Nat.inj in Heq;
    try (apply Z.mod_pos_bound; lia).
  destruct (decide (i = j)) as [|Hne]; [done|exfalso].
  destruct (decide (i < j)%nat).
  - eapply (mod_offsets_ne (Q.front q) (Q.capacity q) (Z.of_nat i) (Z.of_nat j));
      [lia..|done].
  - eapply (mod_offsets_ne (Q.front q) (Q.capacity q) (Z.of_nat j) (Z.of_nat i));
      [lia..|done].
Qed.

(** ** The critical sections on a well-formed queue *)

Lemma wf_rear_range q : wf q → -1 ≤ Q.rear q < Q.capacity q.
Proof.
  intros (Hc & _ & _ & _ & [(-> & _ & _)| ->]); [lia|].
  pose proof (Z.mod_pos_bound (Q.front q + Q.size q - 1) (Q.capacity q)). lia.
Qed.

Lemma wf_next_rear q :
  wf q → (Q.rear q + 1) mod Q.capacity q = (Q.front q + Q.size q) mod Q.capacity q.
Proof.
  intros (Hc & _ & _ & _ & [(-> & -> & ->)| ->]); [done|].
  rewrite Zplus_mod_idemp_l. f_equal. lia.
Qed.


Lemma enqueue_eq q data :
  wf q → Q.is_shutdown q = false → Q.size q < Q.capacity q →
  enqueue q data = unlock (pushed q data) [pthread_cond_signal not_empty] tt.
Proof.
  intros Hwf Hsd Hlt.
  pose proof (wf_rear_range q Hwf) as Hr.
  pose proof (wf_next_rear q Hwf) as Hnext.
  destruct Hwf as (Hc & Hlen & Hs & Hf & _).
  unfold enqueue. rewrite Hsd.
  destruct (Z.eqb_spec (Q.size q) (Q.capacity q)) as [|_]; [lia|]. simpl.
  rewrite (int_add_ok (Q.rear q)) by (unfold INT_MIN, INT_MAX in *; lia). simpl.
  rewrite int_rem_ok by lia. simpl. rewrite Hnext.
  pose proof (Z.mod_pos_bound (Q.front q + Q.size q) (Q.capacity q)).
  rewrite store_ok by lia. simpl.
  rewrite (int_add_ok (Q.size q)) by (unfold INT_MIN, INT_MAX in *; lia). simpl.
  unfold pushed. by rewrite Hsd.
Qed.

Lemma pushed_wf q data : wf q → Q.size q < Q.capacity q → wf (pushed q data).
Proof.
  intros (Hc & Hlen & Hs & Hf & _) Hlt. unfold wf, pushed; simpl.
  rewrite length_insert. repeat split; try lia.
  right. f_equal. lia.
Qed.

Lemma pushed_contents q data :
  wf q → Q.size q < Q.capacity q → contents (pushed q data) = contents q ++ [data].
Proof.
  intros Hwf Hlt.
  pose proof Hwf as (Hc & Hlen & Hs & Hf & _).
  assert (Z.to_nat (Q.size q + 1) = S (Z.to_nat (Q.size q))) as Hsz by lia.
  unfold contents at 1. simpl. rewrite Hsz, seq_S, fmap_app. simpl.
  pose proof (Z.mod_pos_bound (Q.front q + Q.size q) (Q.capacity q)) as Hb.
  f_equal.
  - unfold contents. apply list_fmap_ext. intros k i Hi.
    apply lookup_seq in Hi as [Hk Hi]. simpl in Hk. subst k.
    f_equal. unfold slot at 1; simpl. fold (slot q i).
    apply list_lookup_insert_ne. unfold slot. intros Heq.
    apply Z2Nat.inj in Heq; try (apply Z.mod_pos_bound; lia).
    symmetry in Heq. revert Heq.
    apply mod_offsets_ne; lia.
  - f_equal. unfold slot; simpl. rewrite Z2Nat.id by lia.
    rewrite list_lookup_insert_eq; [done|]. lia.
Qed.


Lemma dequeue_eq q :
  wf q → 0 < Q.size q →
  dequeue q = unlock (popped q) [pthread_cond_signal not_full] (head_item q).
Proof.
  intros (Hc & Hlen & Hs & Hf & _) Hpos.
  unfold dequeue.
  destruct (Z.eqb_spec (Q.size q) 0) as [|_]; [lia|]. simpl.
  destruct (lookup_lt_is_Some_2 (Q.buffer q) (Z.to_nat (Q.front q))) as [x Hx];
    [lia|].
  rewrite (load_ok _ _ x) by (done || lia). simpl.
  rewrite int_add_ok by (unfold INT_MIN, INT_MAX in *; lia). simpl.
  rewrite int_rem_ok by lia. simpl.
  rewrite int_sub_ok by (unfold INT_MIN, INT_MAX in *; lia). simpl.
  unfold popped, head_item. by rewrite Hx.
Qed.

Lemma popped_wf q : wf q → 0 < Q.size q → wf (popped q).
Proof.
  intros (Hc & Hlen & Hs & Hf & Hr) Hpos. unfold wf, popped; simpl.
  pose proof (Z.mod_pos_bound (Q.front q + 1) (Q.capacity q)).
  repeat split; try lia.
  right. destruct Hr as [(_ & _ & ?)| ->]; [lia|].
  replace ((Q.front q + 1) mod Q.capacity q + (Q.size q - 1) - 1)
    with ((Q.front q + 1) mod Q.capacity q + (Q.size q - 2)) by lia.
  rewrite mod_succ_shift by lia. f_equal. lia.
Qed.

Lemma popped_contents q :
  wf q → 0 < Q.size q → contents q = head_item q :: contents (popped q).
Proof.
  intros (Hc & Hlen & Hs & Hf & _) Hpos.
  assert (Z.to_nat (Q.size q) = S (Z.to_nat (Q.size q - 1))) as Hsz by lia.
  unfold contents at 1. rewrite Hsz. simpl. f_equal.
  - unfold head_item, slot. do 3 f_equal.
    rewrite Z.add_0_r. apply Z.mod_small. lia.
  - rewrite <- fmap_S_seq, <- list_fmap_compose. unfold contents. simpl.
    apply list_fmap_ext. intros k i Hi. simpl. do 2 f_equal.
    unfold slot; simpl. f_equal. rewrite mod_succ_shift by lia. f_equal. lia.
Qed.

Lemma contents_empty_iff q : wf q → contents q = [] ↔ Q.size q = 0.
Proof.
  intros (_ & _ & Hs & _). split.
  - intros H. pose proof (contents_length q) as Hl. rewrite H in Hl.
    simpl in Hl. lia.
  - intros H. apply contents_nil. lia.
Qed.

(** ** Every call refines the abstract queue *)

(** On a well-formed queue no call is undefined; a call suspends exactly
    when the abstract call does; and a call that returns leaves a
    well-formed queue whose abstraction is the abstract result. *)
Lemma body_sim o q :
  wf q →
  match body o q with
  | undefined => False
  | cond_wait _ => fifo_call (Q.capacity q) o (abstraction q) = None
  | unlock q' _ r =>
    fifo_call (Q.capacity q) o (abstraction q) = Some (abstraction q', r) ∧
    wf q' ∧ Q.capacity q' = Q.capacity q
  end.
Proof.
  intros Hwf. pose proof Hwf as (Hc & Hlen & Hs & Hf & Hr).
  destruct o as [x| | | |]; simpl.
  - (* enqueue *)
    destruct (Q.is_shutdown q) eqn:Hsd.
    + unfold enqueue. rewrite ?Hsd, andb_false_r. simpl.
      unfold abstraction. by rewrite ?Hsd.
    + destruct (decide (Q.size q = Q.capacity q)) as [Hfull|Hroom].
      * unfold enqueue. rewrite ?Hsd, Hfull, Z.eqb_refl. simpl.
        rewrite ?Hsd, contents_length, Z2Nat.id by lia.
        by rewrite Hfull, Z.ltb_irrefl.
      * rewrite enqueue_eq by (done || lia). simpl.
        rewrite ?Hsd, contents_length, Z2Nat.id by lia.
        destruct (Z.ltb_spec (Q.size q) (Q.capacity q)); [|lia].
        split_and!.
        -- unfold abstraction. rewrite pushed_contents by (done || lia).
           simpl. by rewrite ?Hsd.
        -- apply pushed_wf; [done|lia].
        -- done.
  - (* dequeue *)
    destruct (decide (Q.size q = 0)) as [Hz|Hnz].
    + rewrite (contents_nil q) by lia. unfold dequeue. rewrite Hz. simpl.
      destruct (Q.is_shutdown q) eqn:Hsd; simpl; [|done].
      split_and!; [|done..]. unfold abstraction.
      rewrite ?Hsd, (contents_nil q) by lia. done.
    + rewrite dequeue_eq by (done || lia). simpl.
      rewrite (popped_contents q) by (done || lia).
      split_and!; [done| |done]. apply popped_wf; [done|lia].
  - (* queue_shutdown *)
    split_and!; done.
  - (* is_empty *)
    split_and!; [|done..]. do 3 f_equal.
    destruct (Z.eqb_spec (Q.size q) 0) as [Hz|Hnz].
    + apply bool_decide_eq_true_2. by apply contents_empty_iff.
    + apply bool_decide_eq_false_2. by rewrite contents_empty_iff.
  - (* is_shutdown *)
    split_and!; done.
Qed.

(** The same along a whole sequence of calls. *)
Lemma run_sim ops : ∀ q,
  wf q →
  let t := run q ops in
  wf (final t) ∧
  Q.capacity (final t) = Q.capacity q ∧
  ended t ≠ Undefined ∧
  abstraction (final t) = fifo_run (Q.capacity q) (abstraction q) ops.
Proof.
  induction ops as [|o ops IH]; intros q Hwf; simpl.
  - done.
  - pose proof (body_sim o q Hwf) as Hsim.
    destruct (body o q) as [c|q' w r|]; simpl.
    + by rewrite Hsim.
    + destruct Hsim as (Habs & Hwf' & Hcap). rewrite Habs.
      destruct (IH q' Hwf') as (? & ? & ? & ?).
      rewrite <- Hcap. split_and!; (done || congruence).
    + done.
Qed.

(** ** Construction *)

Lemma buffer_slots_int capacity :
  0 ≤ capacity ≤ INT_MAX → buffer_slots capacity = Z.to_nat capacity.
Proof.
  intros H. unfold buffer_slots, buffer_bytes, SIZE_WIDTH, sizeof_ptr.
  unfold INT_MAX in H.
  rewrite (Z.mod_small capacity) by lia.
  rewrite Z.mod_small by lia.
  by rewrite Z.div_mul by lia.
Qed.

Lemma fresh_queue_wf g capacity :
  0 < capacity ≤ INT_MAX → wf (fresh_queue g capacity).
Proof.
  intros H. unfold wf, fresh_queue; simpl.
  rewrite length_fmap, length_seq, buffer_slots_int by lia.
  split_and!; try lia; by left.
Qed.

Lemma queue_init_success a capacity h :
  struct_ok a = true → buffer_ok a = true →
  queue_init a capacity h =
    (Some (fresh_queue (garbage a) capacity),
     {[fresh ({[fresh h]} ∪ h)]} ∪ ({[fresh h]} ∪ h)).
Proof. intros H1 H2. unfold queue_init, malloc. by rewrite H1, H2. Qed.

Lemma queue_init_failure a capacity h :
  struct_ok a = false ∨ buffer_ok a = false →
  queue_init a capacity h = (None, h).
Proof.
  unfold queue_init, malloc, free.
  destruct (struct_ok a); [|done].
  intros [?| ->]; [done|]. f_equal.
  pose proof (is_fresh h) as Hfresh.
  apply set_eq. intros b.
  rewrite elem_of_difference, elem_of_union, elem_of_singleton.
  split; [by intros [[?|?] ?]|].
  intros Hb. split; [by right|]. by intros ->.
Qed.

Lemma queue_init_Some a capacity h q h' :
  queue_init a capacity h = (Some q, h') → q = fresh_queue (garbage a) capacity.
Proof.
  destruct (struct_ok a) eqn:H1; [destruct (buffer_ok a) eqn:H2|].
  - rewrite queue_init_success by done. by intros [= <- _].
  - rewrite queue_init_failure by auto. done.
  - rewrite queue_init_failure by auto. done.
Qed.

(** ** Sequences of calls *)

Lemma run_app ops1 : ∀ q ops2,
  ended (run q ops1) = Finished →
  run q (ops1 ++ ops2) =
    {| final := final (run (final (run q ops1)) ops2);
       returned := returned (run q ops1) ++ returned (run (final (run q ops1)) ops2);
       printed := printed (run q ops1) ++ printed (run (final (run q ops1)) ops2);
       ended := ended (run (final (run q ops1)) ops2) |}.
Proof.
  induction ops1 as [|o ops1 IH]; intros q ops2 Hfin; simpl.
  - by destruct (run q ops2).
  - simpl in Hfin. destruct (body o q) as [c|q' w r|]; simpl in *; try done.
    rewrite (IH q' ops2 Hfin). simpl. by rewrite app_assoc.
Qed.

(** Enqueues that fit are all accepted, in order. *)
Lemma run_enqueues xs : ∀ q,
  wf q → Q.is_shutdown q = false →
  Q.size q + Z.of_nat (length xs) ≤ Q.capacity q →
  let t := run q (Enqueue <$> xs) in
  ended t = Finished ∧
  returned t = replicate (length xs) RVoid ∧
  printed t = [] ∧
  wf (final t) ∧
  Q.is_shutdown (final t) = false ∧
  Q.capacity (final t) = Q.capacity q ∧
  contents (final t) = contents q ++ xs.
Proof.
  induction xs as [|x xs IH]; intros q Hwf Hsd Hfit; simpl in *.
  - by rewrite app_nil_r.
  - rewrite enqueue_eq by (done || lia). simpl.
    change (list_fmap _ _ Enqueue xs) with (Enqueue <$> xs).
    destruct (IH (pushed q x)) as (? & ? & ? & ? & ? & ? & Hc).
    + apply pushed_wf; [done|lia].
    + done.
    + simpl. lia.
    + split_and!; try done.
      * by f_equal.
      * rewrite Hc, pushed_contents by (done || lia). by rewrite <- app_assoc.
Qed.

(** Dequeues of resident items return them oldest first. *)
Lemma run_dequeues n : ∀ q,
  wf q → (n ≤ length (contents q))%nat →
  let t := run q (replicate n Dequeue) in
  ended t = Finished ∧
  returned t = RPtr <$> take n (contents q) ∧
  printed t = [] ∧
  wf (final t) ∧
  Q.is_shutdown (final t) = Q.is_shutdown q ∧
  Q.capacity (final t) = Q.capacity q ∧
  contents (final t) = drop n (contents q).
Proof.
  induction n as [|n IH]; intros q Hwf Hn; simpl in *.
  - done.
  - pose proof (contents_length q) as Hlen.
    assert (0 < Q.size q) as Hpos by lia.
    rewrite dequeue_eq by done. simpl.
    rewrite (popped_contents q) in Hn |- * by done. simpl in *.
    destruct (IH (popped q)) as (? & ? & ? & ? & ? & ? & ?).
    + by apply popped_wf.
    + lia.
    + split_and!; try done. by f_equal.
Qed.

(** Dequeues of an empty, shut-down queue return [NULL] at once. *)
Lemma run_dequeues_closed n q :
  Q.size q = 0 → Q.is_shutdown q = true →
  run q (replicate n Dequeue) =
    {| final := q; returned := replicate n (RPtr NULL); printed := [];
       ended := Finished |}.
Proof.
  intros Hz Hsd. induction n as [|n IH]; simpl; [done|].
  unfold dequeue. rewrite Hz, Hsd. simpl. by rewrite IH.
Qed.

Lemma queue_shutdown_eq q :
  queue_shutdown q =
  unlock (shut q)
         [pthread_cond_broadcast not_empty; pthread_cond_broadcast not_full] tt.
Proof. done. Qed.

Lemma shut_wf q : wf q → wf (shut q).
Proof. done. Qed.

Lemma shut_contents q : contents (shut q) = contents q.
Proof. done. Qed.

Lemma reachable_wf capacity q :
  0 < capacity ≤ INT_MAX → reachable capacity q →
  wf q ∧ Q.capacity q = capacity.
Proof.
  intros Hc (a & h & h' & q0 & history & Hinit & ->).
  apply queue_init_Some in Hinit as ->.
  destruct (run_sim history (fresh_queue (garbage a) capacity)) as (? & ? & _).
  - by apply fresh_queue_wf.
  - done.
Qed.

Lemma reachable_fresh capacity : reachable capacity (fresh_queue (garbage generous) capacity).
Proof.
  eexists generous, ∅, _, _, []. split; [|done].
  by apply queue_init_success.
Qed.


(** ** FIFO order *)

(** The general form: whatever is resident comes out first, then the new
    items, all in order. *)
Lemma fifo_order_wf q xs :
  wf q → Q.is_shutdown q = false →
  Q.size q + Z.of_nat (length xs) ≤ Q.capacity q →
  let t := run q ((Enqueue <$> xs) ++
                  replicate (length (contents q) + length xs) Dequeue) in
  ended t = Finished ∧
  returned t = replicate (length xs) RVoid ++ (RPtr <$> (contents q ++ xs)) ∧
  contents (final t) = [].
Proof.
  intros Hwf Hsd Hfit.
  destruct (run_enqueues xs q Hwf Hsd Hfit) as (He & Hr & Hp & Hwf1 & Hsd1 & Hc1 & Hk1).
  rewrite run_app by done. simpl.
  destruct (run_dequeues (length (contents q) + length xs)
              (final (run q (Enqueue <$> xs))) Hwf1)
    as (He2 & Hr2 & Hp2 & Hwf2 & _ & _ & Hk2).
  { rewrite Hk1, length_app. lia. }
  rewrite He2, Hr2, Hk2, Hr, Hk1.
  rewrite <- length_app, take_ge, drop_ge by done. done.
Qed.

(** C1 — FIFO order: on every queue constructed with a positive capacity
    C that is currently empty and not shut down, N ≤ C enqueues followed by
    N dequeues all return, and the dequeues return the enqueued values in
    the order they were enqueued. *)
Theorem fifo_order capacity q xs :
  0 < capacity ≤ INT_MAX → reachable capacity q →
  Q.size q = 0 → Q.is_shutdown q = false →
  Z.of_nat (length xs) ≤ capacity →
  let t := run q ((Enqueue <$> xs) ++ replicate (length xs) Dequeue) in
  ended t = Finished ∧
  returned t = replicate (length xs) RVoid ++ (RPtr <$> xs).
Proof.
  intros Hc Hreach Hz Hsd Hfit.
  destruct (reachable_wf capacity q Hc Hreach) as (Hwf & Hcap).
  destruct (fifo_order_wf q xs Hwf Hsd) as (He & Hr & _); [lia|].
  rewrite (contents_nil q) in He, Hr by lia. done.
Qed.

Lemma fifo_order_witness :
  let t := run (fresh_queue (garbage generous) 3)
               ((Enqueue <$> [11; 22; 33]) ++ replicate 3 Dequeue) in
  ended t = Finished ∧
  returned t = replicate 3 RVoid ++ (RPtr <$> [11; 22; 33]).
Proof.
  apply (fifo_order 3 (fresh_queue (garbage generous) 3) [11; 22; 33]).
  - unfold INT_MAX. lia.
  - apply reachable_fresh.
  - reflexivity.
  - reflexivity.
  - simpl. lia.
Defined.

(** ** Drain, then close *)

Lemma drain_then_close_wf q m :
  wf q →
  let t := run q (Shutdown :: replicate (length (contents q)) Dequeue ++
                  replicate m Dequeue) in
  ended t = Finished ∧
  returned t = RVoid :: (RPtr <$> contents q) ++ replicate m (RPtr NULL) ∧
  printed t = [shutdown_notice] ∧
  Q.size (final t) = 0.
Proof.
  intros Hwf. cbn [run body returning epilogue]. rewrite queue_shutdown_eq.
  cbn [returning].
  destruct (run_dequeues (length (contents q)) (shut q))
    as (He & Hr & Hp & Hwf1 & Hsd1 & _ & Hk1); [by apply shut_wf|done|].
  rewrite shut_contents, firstn_all in Hr. rewrite shut_contents, drop_all in Hk1.
  rewrite run_app by done.
  assert (Q.size (final (run (shut q) (replicate (length (contents q)) Dequeue))) = 0)
    as Hz by by apply contents_empty_iff.
  rewrite run_dequeues_closed by done. simpl.
  by rewrite Hr, Hp.
Qed.

(** C2 — Drain-then-close: when Shutdown is called on a queue holding k
    resident items, the next k Dequeue calls return those items oldest
    first, and every later Dequeue returns at once, without suspending,
    with the empty-sentinel [NULL]. *)
Theorem drain_then_close capacity q m :
  0 < capacity ≤ INT_MAX → reachable capacity q →
  let k := Z.to_nat (Q.size q) in
  let t := run q (Shutdown :: replicate k Dequeue ++ replicate m Dequeue) in
  length (contents q) = k ∧
  ended t = Finished ∧
  returned t = RVoid :: (RPtr <$> contents q) ++ replicate m (RPtr NULL).
Proof.
  intros Hc Hreach.
  destruct (reachable_wf capacity q Hc Hreach) as (Hwf & _).
  destruct (drain_then_close_wf q m Hwf) as (He & Hr & _).
  rewrite contents_length in He, Hr. split_and!; [apply contents_length|done..].
Qed.

Lemma drain_then_close_witness :
  let q := final (run (fresh_queue (garbage generous) 4)
                      [Enqueue 11; Enqueue 22; Enqueue 33]) in
  returned (run q (Shutdown :: replicate 3 Dequeue ++ replicate 2 Dequeue)) =
  [RVoid; RPtr 11; RPtr 22; RPtr 33; RPtr NULL; RPtr NULL].
Proof.
  assert (reachable 4 (final (run (fresh_queue (garbage generous) 4)
                                  [Enqueue 11; Enqueue 22; Enqueue 33]))) as Hreach.
  { eexists generous, ∅, _, _, [Enqueue 11; Enqueue 22; Enqueue 33].
    split; [by apply queue_init_success|done]. }
  refine (proj2 (proj2 (drain_then_close 4 _ 2 _ Hreach))).
  unfold INT_MAX. lia.
Defined.

(** ** Enqueue after shutdown *)

Lemma body_keeps_shutdown o q q' w r :
  Q.is_shutdown q = true → body o q = unlock q' w r → Q.is_shutdown q' = true.
Proof.
  intros Hsd. destruct o as [x| | | |]; simpl.
  - unfold enqueue. rewrite Hsd, andb_false_r. by intros [= <- _ _].
  - unfold dequeue. rewrite Hsd, andb_false_r.
    destruct (Q.size q =? 0); [by intros [= <- _ _]|].
    destruct (load _ _); simpl; [|done].
    destruct (int_add _ _); simpl; [|done].
    destruct (int_rem _ _); simpl; [|done].
    destruct (int_sub _ _); simpl; [|done].
    by intros [= <- _ _].
  - by intros [= <- _ _].
  - by intros [= <- _ _].
  - by intros [= <- _ _].
Qed.

Lemma run_keeps_shutdown ops : ∀ q,
  Q.is_shutdown q = true → Q.is_shutdown (final (run q ops)) = true.
Proof.
  induction ops as [|o ops IH]; intros q Hsd; simpl; [done|].
  destruct (body o q) as [c|q' w r|] eqn:Hb; simpl; try done.
  apply IH. by eapply body_keeps_shutdown.
Qed.

(** After shutdown the resident items can only be taken away. *)
Lemma closed_only_drains ops : ∀ q,
  wf q → Q.is_shutdown q = true →
  ended (run q ops) = Finished ∧
  ∃ k, contents (final (run q ops)) = drop k (contents q).
Proof.
  induction ops as [|o ops IH]; intros q Hwf Hsd; simpl.
  - split; [done|]. by exists 0%nat.
  - pose proof (body_sim o q Hwf) as Hsim.
    destruct (body o q) as [c|q' w r|] eqn:Hb; simpl.
    + exfalso. destruct o; simpl in Hsim; try done.
      * by rewrite Hsd in Hsim.
      * rewrite Hsd in Hsim. by destruct (contents q).
    + destruct Hsim as (Habs & Hwf' & _).
      destruct (IH q' Hwf') as (He & k & Hk);
        [by eapply body_keeps_shutdown|].
      split; [done|]. rewrite Hk.
      assert (∀ a r', Some (a, r') = Some (abstraction q', r) →
                      contents q' = items a) as Hitems.
      { intros a r' [= -> _]. done. }
      destruct o; simpl in Habs.
      * rewrite Hsd in Habs. exists k. by rewrite (Hitems _ _ Habs).
      * destruct (contents q) as [|x rest] eqn:Hcq.
        -- rewrite Hsd in Habs. exists k.
           rewrite (Hitems _ _ Habs). simpl. by rewrite Hcq.
        -- exists (S k). by rewrite (Hitems _ _ Habs).
      * exists k. by rewrite (Hitems _ _ Habs).
      * exists k. by rewrite (Hitems _ _ Habs).
      * exists k. by rewrite (Hitems _ _ Habs).
    + done.
Qed.

Lemma enqueue_closed q data :
  Q.is_shutdown q = true → enqueue q data = unlock q [] tt.
Proof. intros Hsd. unfold enqueue. by rewrite Hsd, andb_false_r. Qed.

(** C3 — Post-shutdown Enqueue is a no-op: on a queue whose shutdown flag
    is set, Enqueue unlocks and returns with every field of the queue
    unchanged and without waking anybody; and whatever calls follow, the
    resident items are only ever a suffix of those resident now. *)
Theorem enqueue_after_shutdown q data :
  Q.is_shutdown q = true →
  enqueue q data = unlock q [] tt ∧
  run q [Enqueue data] =
    {| final := q; returned := [RVoid]; printed := []; ended := Finished |} ∧
  (wf q → ∀ ops,
     ended (run q ops) = Finished ∧
     Q.is_shutdown (final (run q ops)) = true ∧
     ∃ k, contents (final (run q ops)) = drop k (contents q)).
Proof.
  intros Hsd.
  pose proof (enqueue_closed q data Hsd) as Heq.
  split_and!; [done|by simpl; rewrite Heq|].
  intros Hwf ops.
  destruct (closed_only_drains ops q Hwf Hsd) as (? & ?).
  split_and!; [done| |done]. by apply run_keeps_shutdown.
Qed.

Lemma enqueue_after_shutdown_witness :
  let q := shut (pushed (fresh_queue (garbage generous) 2) 11) in
  enqueue q 22 = unlock q [] tt ∧
  returned (run q [Enqueue 22; Dequeue; Enqueue 33; Dequeue]) =
    [RVoid; RPtr 11; RVoid; RPtr NULL].
Proof.
  split.
  - apply (enqueue_after_shutdown
             (shut (pushed (fresh_queue (garbage generous) 2) 11)) 22).
    reflexivity.
  - reflexivity.
Defined.

(** ** The bounds invariant *)

Lemma slots_NoDup q :
  wf q → NoDup (slot q <$> seq 0 (Z.to_nat (Q.size q))).
Proof.
  intros Hwf. apply NoDup_fmap_2_strong; [|apply NoDup_seq].
  intros i j Hi Hj. apply elem_of_seq in Hi, Hj.
  apply slot_inj; (done || lia).
Qed.

Lemma contents_cell q i x :
  wf q → contents q !! i = Some x → Q.buffer q !! slot q i = Some x.
Proof.
  intros Hwf Hx.
  pose proof (lookup_lt_Some _ _ _ Hx) as Hi. rewrite contents_length in Hi.
  rewrite contents_lookup in Hx by done.
  destruct (lookup_lt_is_Some_2 (Q.buffer q) (slot q i)) as [y Hy];
    [by apply slot_lt|].
  rewrite Hy in Hx |- *. simpl in Hx. done.
Qed.

(** C4 — Bounds invariant: on a queue constructed with a positive
    capacity, no sequence of Enqueue / Dequeue / Shutdown / IsEmpty /
    IsShutdown calls is ever undefined, and after it
    [0 ≤ size ≤ capacity]; the live items (accepted and not yet removed,
    as the abstract FIFO of the specification tracks them) are [size]
    many, the [i]-th of them is stored in cell [(front + i) mod capacity],
    and these cells are pairwise different. *)
Theorem bounds_invariant a capacity h q0 h' ops :
  0 < capacity ≤ INT_MAX →
  queue_init a capacity h = (Some q0, h') →
  let t := run q0 ops in
  let q := final t in
  let live := items (fifo_run capacity {| items := []; closed := false |} ops) in
  ended t ≠ Undefined ∧
  Q.capacity q = capacity ∧
  0 ≤ Q.size q ≤ capacity ∧
  Z.of_nat (length live) = Q.size q ∧
  (∀ (i : nat) x, live !! i = Some x →
     Q.buffer q !! Z.to_nat ((Q.front q + Z.of_nat i) mod capacity) = Some x) ∧
  NoDup ((λ i : nat, Z.to_nat ((Q.front q + Z.of_nat i) mod capacity))
           <$> seq 0 (length live)).
Proof.
  intros Hc Hinit. apply queue_init_Some in Hinit as ->.
  pose proof (fresh_queue_wf (garbage a) capacity Hc) as Hwf0.
  destruct (run_sim ops _ Hwf0) as (Hwf & Hcap & Hend & Habs).
  simpl in Hcap, Habs.
  change {| items := []; closed := false |}
    with (abstraction (fresh_queue (garbage a) capacity)).
  cbv zeta. rewrite <- Habs. cbn [items abstraction].
  pose proof Hwf as (_ & _ & Hs & _).
  rewrite Hcap in Hs.
  split_and!; try done; try lia.
  - rewrite contents_length. lia.
  - intros i x Hx. pose proof (contents_cell _ i x Hwf Hx) as Hcell.
    unfold slot in Hcell. by rewrite Hcap in Hcell.
  - rewrite contents_length. pose proof (slots_NoDup _ Hwf) as Hnd.
    unfold slot in Hnd. by rewrite Hcap in Hnd.
Qed.

Lemma bounds_invariant_witness :
  let q := final (run (fresh_queue (garbage generous) 2)
                      [Enqueue 11; Enqueue 22; Dequeue; Enqueue 33]) in
  0 ≤ Q.size q ≤ 2 ∧
  Q.buffer q !! Z.to_nat ((Q.front q + Z.of_nat 1) mod 2) = Some 33.
Proof.
  pose proof (bounds_invariant generous 2 ∅ _ _
                [Enqueue 11; Enqueue 22; Dequeue; Enqueue 33]
                ltac:(unfold INT_MAX; lia)
                (queue_init_success generous 2 ∅ eq_refl eq_refl))
    as (_ & _ & Hs & _ & Hcell & _).
  split; [exact Hs|]. apply Hcell. reflexivity.
Defined.

(** ** Shutdown is monotone and idempotent *)

(** C5 — Shutdown monotonicity and idempotence: a constructed queue has
    its shutdown flag clear; once the flag is set, no call and no sequence
    of calls clears it; and a second Shutdown returns normally and leaves
    every field of the queue as the first one left it. *)
Theorem shutdown_monotone_idempotent :
  (∀ a capacity h q h',
     queue_init a capacity h = (Some q, h') → Q.is_shutdown q = false) ∧
  (∀ o q q' w r,
     Q.is_shutdown q = true → body o q = unlock q' w r →
     Q.is_shutdown q' = true) ∧
  (∀ q ops,
     Q.is_shutdown q = true → Q.is_shutdown (final (run q ops)) = true) ∧
  (∀ q,
     let q1 := final (run q [Shutdown]) in
     Q.is_shutdown q1 = true ∧
     run q1 [Shutdown] =
       {| final := q1; returned := [RVoid]; printed := [shutdown_notice];
          ended := Finished |}).
Proof.
  split_and!.
  - intros a capacity h q h' Hinit. by apply queue_init_Some in Hinit as ->.
  - intros o q q' w r. apply body_keeps_shutdown.
  - intros q ops. apply run_keeps_shutdown.
  - intros q. done.
Qed.

Lemma shutdown_monotone_idempotent_witness :
  let q := shut (fresh_queue (garbage generous) 2) in
  Q.is_shutdown (final (run q [Enqueue 11; Dequeue; Shutdown; IsEmpty])) = true.
Proof.
  apply (proj1 (proj2 (proj2 shutdown_monotone_idempotent))).
  reflexivity.
Defined.

(** ** The empty-sentinel *)

(** The reading of C6 as stated — whatever item a Dequeue removes, its
    return value differs from what Dequeue returns on an empty, shut-down
    queue — fails: a stored [NULL] comes back as [NULL], which is also the
    sentinel. *)
Lemma null_payload_is_the_sentinel :
  let fresh1 := fresh_queue (garbage generous) 1 in
  let stored := final (run fresh1 [Enqueue NULL]) in
  let drained := final (run fresh1 [Shutdown]) in
  reachable 1 stored ∧ reachable 1 drained ∧
  contents stored = [NULL] ∧
  contents drained = [] ∧ Q.is_shutdown drained = true ∧
  returned (run stored [Dequeue]) = [RPtr NULL] ∧
  returned (run drained [Dequeue]) = [RPtr NULL] ∧
  contents (final (run stored [Dequeue])) = [].
Proof.
  split_and!; try done.
  - eexists generous, ∅, _, _, [Enqueue NULL].
    split; [by apply queue_init_success|done].
  - eexists generous, ∅, _, _, [Shutdown].
    split; [by apply queue_init_success|done].
Qed.

(** C6 (amended) — The empty-sentinel is [NULL]: Dequeue on an empty,
    shut-down queue returns [NULL] and leaves the queue untouched; a
    Dequeue that removes an item returns exactly that item, the oldest
    resident one; hence its result differs from the sentinel whenever the
    removed item is not [NULL]. *)
Theorem sentinel_is_null capacity q :
  0 < capacity ≤ INT_MAX → reachable capacity q →
  (Q.size q = 0 → Q.is_shutdown q = true →
   returned (run q [Dequeue]) = [RPtr NULL] ∧ final (run q [Dequeue]) = q) ∧
  (0 < Q.size q →
   ∃ v rest,
     contents q = v :: rest ∧
     returned (run q [Dequeue]) = [RPtr v] ∧
     contents (final (run q [Dequeue])) = rest ∧
     (v ≠ NULL → returned (run q [Dequeue]) ≠ [RPtr NULL])).
Proof.
  intros Hc Hreach.
  destruct (reachable_wf capacity q Hc Hreach) as (Hwf & _).
  split.
  - intros Hz Hsd. simpl. unfold dequeue. by rewrite Hz, Hsd.
  - intros Hpos. exists (head_item q), (contents (popped q)).
    simpl. rewrite dequeue_eq by done. simpl.
    split_and!; [by apply popped_contents|done..|].
    intros Hne. congruence.
Qed.

Lemma sentinel_is_null_witness :
  let q := final (run (fresh_queue (garbage generous) 2) [Enqueue 11]) in
  ∃ v rest,
    contents q = v :: rest ∧
    returned (run q [Dequeue]) = [RPtr v] ∧
    contents (final (run q [Dequeue])) = rest ∧
    (v ≠ NULL → returned (run q [Dequeue]) ≠ [RPtr NULL]).
Proof.
  assert (reachable 2 (final (run (fresh_queue (garbage generous) 2) [Enqueue 11])))
    as Hreach.
  { eexists generous, ∅, _, _, [Enqueue 11].
    split; [by apply queue_init_success|done]. }
  refine (proj2 (sentinel_is_null 2 _ _ Hreach) _).
  - unfold INT_MAX. lia.
  - simpl. lia.
Defined.

(** ** Construction *)

(** C7 — Construction: for a positive capacity, when both allocations
    succeed [queue_init] returns a queue with [size = 0], [front = 0],
    [rear] one before [front], the shutdown flag clear and [capacity]
    cells, on which IsEmpty answers true and IsShutdown answers false;
    when an allocation fails it returns no queue and the heap is exactly
    as it was before the call. *)
Theorem construct a capacity h :
  0 < capacity ≤ INT_MAX →
  (struct_ok a = true → buffer_ok a = true →
   ∃ q h',
     queue_init a capacity h = (Some q, h') ∧
     Q.capacity q = capacity ∧
     length (Q.buffer q) = Z.to_nat capacity ∧
     Q.size q = 0 ∧ Q.front q = 0 ∧ Q.rear q = Q.front q - 1 ∧
     Q.is_shutdown q = false ∧
     contents q = [] ∧
     is_empty q = unlock q [] true ∧
     is_shutdown q = unlock q [] false) ∧
  (struct_ok a = false ∨ buffer_ok a = false →
   queue_init a capacity h = (None, h)).
Proof.
  intros Hc. split.
  - intros H1 H2. eexists _, _. split; [by apply queue_init_success|].
    simpl. rewrite length_fmap, length_seq, buffer_slots_int by lia.
    split_and!; done.
  - apply queue_init_failure.
Qed.

Lemma construct_witness :
  (∃ q h', queue_init generous 3 ∅ = (Some q, h') ∧ Q.size q = 0 ∧
           is_empty q = unlock q [] true) ∧
  queue_init {| struct_ok := true; buffer_ok := false; garbage := λ _, 0 |}
             3 {[7%nat]} = (None, {[7%nat]}).
Proof.
  split.
  - destruct (proj1 (construct generous 3 ∅ ltac:(unfold INT_MAX; lia))
                eq_refl eq_refl)
      as (q & h' & Hinit & _ & _ & Hsize & _ & _ & _ & _ & Hempty & _).
    by exists q, h'.
  - apply (proj2 (construct {| struct_ok := true; buffer_ok := false;
                               garbage := λ _, 0 |} 3 {[7%nat]}
                    ltac:(unfold INT_MAX; lia))).
    by right.
Defined.

(** ** Non-positive capacity *)

Lemma enqueue_never_waits_negative q data c :
  Q.capacity q < 0 → 0 ≤ Q.size q → enqueue q data ≠ cond_wait c.
Proof.
  intros Hc Hs. unfold enqueue.
  destruct (Z.eqb_spec (Q.size q) (Q.capacity q)) as [|_]; [lia|]. simpl.
  destruct (Q.is_shutdown q); [done|].
  destruct (int_add (Q.rear q) 1); simpl; [|done].
  destruct (int_rem _ _); simpl; [|done].
  destruct (store _ _ _); simpl; [|done].
  destruct (int_add (Q.size q) 1); simpl; done.
Qed.

(** With capacity [-1] every item lands in cell 0: the second enqueue
    overwrites the first, which is lost, and the second is delivered
    twice. *)
Lemma minus_one_overwrites b c x y :
  let q := {| Q.buffer := c :: b; Q.capacity := -1; Q.size := 0;
              Q.front := 0; Q.rear := -1; Q.is_shutdown := false |} in
  let t := run q [Enqueue x; Enqueue y; Dequeue; Dequeue] in
  ended t = Finished ∧ returned t = [RVoid; RVoid; RPtr y; RPtr y].
Proof. done. Qed.

(** C8 — Non-positive capacity is not validated: whatever the capacity,
    [queue_init] returns a queue as soon as both allocations succeed.
    With capacity 0 the queue is full and empty at once — Enqueue and
    Dequeue both suspend; with a negative capacity the full test never
    holds, so Enqueue never suspends and, for capacity [-1], overwrites
    the item enqueued before it. *)
Theorem nonpositive_capacity_unchecked a capacity h :
  capacity ≤ 0 → struct_ok a = true → buffer_ok a = true →
  ∃ q h',
    queue_init a capacity h = (Some q, h') ∧ Q.capacity q = capacity ∧
    (capacity = 0 → ∀ data,
       enqueue q data = cond_wait not_full ∧ dequeue q = cond_wait not_empty) ∧
    (capacity < 0 → ∀ q' data c,
       Q.capacity q' = capacity → 0 ≤ Q.size q' → enqueue q' data ≠ cond_wait c) ∧
    (capacity = -1 → ∃ cell cells,
       Q.buffer q = cell :: cells ∧
       ∀ x y,
         returned (run q [Enqueue x; Enqueue y; Dequeue; Dequeue]) =
         [RVoid; RVoid; RPtr y; RPtr y]).
Proof.
  intros Hc H1 H2. eexists _, _.
  split; [by apply queue_init_success|]. split; [done|].
  split_and!.
  - by intros ->.
  - intros Hneg q' data c Hcap Hs. apply enqueue_never_waits_negative; lia.
  - intros ->. unfold fresh_queue.
    assert (∃ n, buffer_slots (-1) = S n) as [n ->].
    { exists (Z.to_nat (2 ^ 61 - 2)). unfold buffer_slots.
      replace (buffer_bytes (-1) / sizeof_ptr) with (2 ^ 61 - 1) by by vm_compute.
      lia. }
    rewrite <- cons_seq, fmap_cons. eexists _, _. split; [done|].
    intros x y. apply minus_one_overwrites.
Qed.

Lemma nonpositive_capacity_unchecked_witness :
  ∃ q h', queue_init generous 0 ∅ = (Some q, h') ∧ Q.capacity q = 0 ∧
          enqueue q 11 = cond_wait not_full.
Proof.
  destruct (nonpositive_capacity_unchecked generous 0 ∅ ltac:(lia) eq_refl eq_refl)
    as (q & h' & Hinit & Hcap & Hzero & _).
  exists q, h'. split_and!; [done..|]. by apply Hzero.
Defined.

(** ** Coherence of the circular indices *)

Lemma rear_is_last q :
  wf q → 0 < Q.size q →
  Q.rear q = (Q.front q + Q.size q - 1) mod Q.capacity q ∧
  Q.buffer q !! Z.to_nat (Q.rear q) = last (contents q).
Proof.
  intros Hwf Hpos. pose proof Hwf as (Hc & Hlen & Hs & Hf & Hr).
  destruct Hr as [(_ & _ & ?)|Hr]; [lia|]. split; [done|].
  rewrite last_lookup, contents_length.
  assert (Nat.pred (Z.to_nat (Q.size q)) < Z.to_nat (Q.size q))%nat as Hi by lia.
  rewrite contents_lookup by done.
  replace (Z.to_nat (Q.rear q)) with (slot q (Nat.pred (Z.to_nat (Q.size q)))).
  - destruct (lookup_lt_is_Some_2 (Q.buffer q)
                (slot q (Nat.pred (Z.to_nat (Q.size q))))) as [y Hy];
      [by apply slot_lt|].
    by rewrite Hy.
  - unfold slot. rewrite Hr. do 2 f_equal. lia.
Qed.

(** C10 — Circular-index coherence: on a queue constructed with a
    positive capacity, after any sequence of calls [0 ≤ front < capacity];
    when the queue is not empty, [rear = (front + size − 1) mod capacity]
    and the cell at [rear] holds the most recently enqueued live item;
    when it is empty, [rear] is [(front − 1) mod capacity] or still has
    its initial value [−1]. *)
Theorem circular_index_coherence a capacity h q0 h' ops :
  0 < capacity ≤ INT_MAX →
  queue_init a capacity h = (Some q0, h') →
  let q := final (run q0 ops) in
  let live := items (fifo_run capacity {| items := []; closed := false |} ops) in
  0 ≤ Q.front q < capacity ∧
  (0 < Q.size q →
   Q.rear q = (Q.front q + Q.size q - 1) mod capacity ∧
   Q.buffer q !! Z.to_nat (Q.rear q) = last live) ∧
  (Q.size q = 0 →
   Q.rear q = (Q.front q - 1) mod capacity ∨ Q.rear q = -1).
Proof.
  intros Hc Hinit. apply queue_init_Some in Hinit as ->.
  pose proof (fresh_queue_wf (garbage a) capacity Hc) as Hwf0.
  destruct (run_sim ops _ Hwf0) as (Hwf & Hcap & Hend & Habs).
  simpl in Hcap, Habs.
  change {| items := []; closed := false |}
    with (abstraction (fresh_queue (garbage a) capacity)).
  cbv zeta. rewrite <- Habs. cbn [items abstraction].
  pose proof Hwf as (_ & _ & _ & Hf & Hr). rewrite Hcap in Hf, Hr.
  split_and!; try lia.
  - intros Hpos. destruct (rear_is_last _ Hwf Hpos) as (Hrear & Hlast).
    by rewrite Hcap in Hrear.
  - intros Hz. destruct Hr as [(? & _)|Hr]; [by right|left].
    rewrite Hr. f_equal. lia.
Qed.

Lemma circular_index_coherence_witness :
  let q := final (run (fresh_queue (garbage generous) 2)
                      [Enqueue 11; Enqueue 22; Dequeue; Enqueue 33]) in
  Q.rear q = (Q.front q + Q.size q - 1) mod 2 ∧
  Q.buffer q !! Z.to_nat (Q.rear q) = Some 33.
Proof.
  pose proof (circular_index_coherence generous 2 ∅ _ _
                [Enqueue 11; Enqueue 22; Dequeue; Enqueue 33]
                ltac:(unfold INT_MAX; lia)
                (queue_init_success generous 2 ∅ eq_refl eq_refl))
    as (_ & Hrear & _).
  apply Hrear. reflexivity.
Defined.

(** ** Wake-ups *)

Lemma wake_thread_call c th : call (wake_thread c th) = call th.
Proof.
  unfold wake_thread. destruct (at_pc th) as [| |c'| |]; try done.
  by destruct (decide (c = c')).
Qed.

(** A wake-up changes nothing but [Suspended] into [AtLock]. *)
Lemma wake_thread_pc c th :
  at_pc (wake_thread c th) = at_pc th ∨
  (at_pc th = Suspended c ∧ at_pc (wake_thread c th) = AtLock).
Proof.
  unfold wake_thread. destruct (at_pc th) as [| |c'| |] eqn:Hpc; auto.
  destruct (decide (c = c')) as [->|Hne]; simpl; auto.
Qed.

Lemma wake_thread_not_suspended c th :
  at_pc (wake_thread c th) ≠ Suspended c.
Proof.
  unfold wake_thread. destruct (at_pc th) as [| |c'| |] eqn:Hpc;
    try (rewrite Hpc; done).
  destruct (decide (c = c')) as [->|Hne]; simpl; [done|].
  rewrite Hpc. congruence.
Qed.

Lemma wake_thread_id c th :
  (∀ c', at_pc th ≠ Suspended c') → wake_thread c th = th.
Proof.
  intros H. unfold wake_thread.
  destruct (at_pc th) as [| |c'| |] eqn:Hpc; try done.
  by destruct (H c').
Qed.

Lemma woken_from_refl ths : woken_from ths ths.
Proof. split; [done|]. intros t th H. exists th. auto. Qed.

Lemma woken_from_trans ths1 ths2 ths3 :
  woken_from ths1 ths2 → woken_from ths2 ths3 → woken_from ths1 ths3.
Proof.
  intros [Hl1 H1] [Hl2 H2]. split; [congruence|].
  intros t th3 H3.
  destruct (H2 t th3 H3) as (th2 & Hth2 & Hc2 & Hp2).
  destruct (H1 t th2 Hth2) as (th1 & Hth1 & Hc1 & Hp1).
  exists th1. split_and!; [done|congruence|].
  destruct Hp2 as [Hp2|[[c Hs] Hp2]].
  - rewrite Hp2. done.
  - destruct Hp1 as [Hp1|[_ Hp1]]; [|congruence].
    right. split; [|done]. exists c. congruence.
Qed.

Lemma broadcast_woken_from c ths : woken_from ths (broadcast c ths).
Proof.
  unfold broadcast. split; [by rewrite length_fmap|].
  intros t th' H. rewrite list_lookup_fmap in H.
  destruct (ths !! t) as [th|] eqn:Hth; [|done]. injection H as <-.
  exists th. split_and!; [done|apply wake_thread_call|].
  destruct (wake_thread_pc c th) as [?|[? ?]]; eauto.
Qed.

Lemma signalled_woken_from c ths ths' :
  signalled c ths ths' → woken_from ths ths'.
Proof.
  intros [ths0 _|ths0 t th Hth Hpc]; [apply woken_from_refl|].
  split; [by rewrite length_insert|].
  intros t' th' H. destruct (decide (t = t')) as [<-|Hne].
  - rewrite list_lookup_insert_eq in H by by eapply lookup_lt_Some.
    injection H as <-. exists th. split_and!; eauto.
  - rewrite list_lookup_insert_ne in H by done. exists th'. auto.
Qed.

Lemma woken_woken_from w ths ths' : woken w ths ths' → woken_from ths ths'.
Proof.
  induction 1 as [ths|c w ths ths1 ths2 Hs _ IH|c w ths ths2 _ IH].
  - apply woken_from_refl.
  - eapply woken_from_trans; [by eapply signalled_woken_from|done].
  - eapply woken_from_trans; [apply broadcast_woken_from|done].
Qed.

(** With nobody suspended, wake-ups do nothing. *)
Lemma woken_nobody w ths ths' :
  nobody_suspended ths → woken w ths ths' → ths' = ths.
Proof.
  intros Hno Hw.
  induction Hw as [ths|c w ths ths1 ths2 Hs _ IH|c w ths ths2 _ IH].
  - done.
  - destruct Hs as [ths _|ths t th Hth Hpc]; [by apply IH|].
    by destruct (Hno t th c Hth).
  - assert (broadcast c ths = ths) as Heq.
    { unfold broadcast. rewrite <- (list_fmap_id ths) at 2.
      apply list_fmap_ext. intros t th Hth. apply wake_thread_id.
      intros c'. by eapply Hno. }
    rewrite Heq in IH. by apply IH.
Qed.

Lemma woken_from_nobody ths ths' :
  nobody_suspended ths → woken_from ths ths' → nobody_suspended ths'.
Proof.
  intros Hno [_ H] t th' c Hth'.
  destruct (H t th' Hth') as (th & Hth & _ & [Hp|[_ Hp]]); rewrite Hp; [|done].
  by eapply Hno.
Qed.

(** The two broadcasts of [queue_shutdown] leave nobody suspended. *)
Lemma broadcast_both ths ths' :
  woken [pthread_cond_broadcast not_empty; pthread_cond_broadcast not_full]
        ths ths' →
  ths' = broadcast not_full (broadcast not_empty ths) ∧
  nobody_suspended ths'.
Proof.
  intros Hw. inversion Hw as [| |c w ths0 ths2 Hw1]; subst.
  inversion Hw1 as [| |c w ths0 ths2 Hw2]; subst.
  inversion Hw2; subst. split; [done|].
  intros t th' c Hth'. unfold broadcast in Hth'.
  rewrite !list_lookup_fmap in Hth'.
  destruct (ths !! t) as [th|]; [|done]. injection Hth' as <-.
  destruct c.
  - apply wake_thread_not_suspended.
  - destruct (wake_thread_pc not_full (wake_thread not_empty th))
      as [->|[_ ->]]; [|done].
    apply wake_thread_not_suspended.
Qed.

(** ** Calls on a draining queue *)

(** Once the shutdown flag is set no call suspends and none is undefined:
    each runs to its unlock, keeps the flag, and can only take items
    away. *)
Lemma body_draining o q :
  wf q → Q.is_shutdown q = true →
  ∃ q' w r,
    body o q = unlock q' w r ∧ wf q' ∧ Q.is_shutdown q' = true ∧
    ∃ k, contents q' = drop k (contents q).
Proof.
  intros Hwf Hsd.
  pose proof (closed_only_drains [o] q Hwf Hsd) as (Hend & k & Hk).
  simpl in Hend, Hk.
  pose proof (body_sim o q Hwf) as Hsim.
  destruct (body o q) as [c|q' w r|] eqn:Hb; simpl in *; try done.
  exists q', w, r. destruct Hsim as (_ & Hwf' & _).
  split_and!; [done..| |by exists k].
  by eapply body_keeps_shutdown.
Qed.

(** ** Thread-list bookkeeping *)

(** [simpl] unfolds [<$>] on a cons; this folds it back so that sums over
    thread lists stay recognisable. *)
Ltac fold_remaining :=
  change (list_fmap thread nat remaining) with (fmap (M:=list) remaining) in *.

Lemma lookup_move (ths : list thread) t th p t' :
  ths !! t = Some th →
  <[t := move th p]> ths !! t' =
    if decide (t = t') then Some (move th p) else ths !! t'.
Proof.
  intros Hth. case_decide as Ht.
  - subst. apply list_lookup_insert_eq. by eapply lookup_lt_Some.
  - by apply list_lookup_insert_ne.
Qed.

Lemma nobody_suspended_move ths t th p :
  ths !! t = Some th → nobody_suspended ths → (∀ c, p ≠ Suspended c) →
  nobody_suspended (<[t := move th p]> ths).
Proof.
  intros Hth Hno Hp t' th' c. rewrite (lookup_move _ _ _ _ _ Hth).
  case_decide.
  - intros [= <-]. apply Hp.
  - apply Hno.
Qed.

Lemma woken_nobody_refl w ths : nobody_suspended ths → woken w ths ths.
Proof.
  intros Hno. induction w as [|[c|c] w IH].
  - constructor.
  - econstructor; [|done]. constructor. intros t th Hth. by eapply Hno.
  - constructor.
    assert (broadcast c ths = ths) as ->; [|done].
    unfold broadcast. rewrite <- (list_fmap_id ths) at 2.
    apply list_fmap_ext. intros t th Hth. apply wake_thread_id.
    intros c'. by eapply Hno.
Qed.

Lemma work_move ths t th p :
  ths !! t = Some th →
  (sum_list (remaining <$> <[t := move th p]> ths) + remaining th =
   sum_list (remaining <$> ths) + remaining (move th p))%nat.
Proof.
  revert t. induction ths as [|th0 ths IH]; intros [|t] Hth; simpl in *;
    try done.
  - injection Hth as ->. lia.
  - specialize (IH t Hth). fold_remaining. lia.
Qed.

Lemma work_pos_thread ths :
  (0 < sum_list (remaining <$> ths))%nat →
  ∃ t th, ths !! t = Some th ∧ (0 < remaining th)%nat.
Proof.
  induction ths as [|th0 ths IH]; simpl; [lia|]. intros Hpos.
  fold_remaining.
  destruct (decide (0 < remaining th0)%nat) as [H0|H0].
  - by exists 0%nat, th0.
  - destruct IH as (t & th & Hth & Hr); [lia|]. by exists (S t), th.
Qed.

Lemma work_zero_returned s : work s = 0%nat → all_returned s.
Proof.
  unfold work, all_returned. induction (threads s) as [|th0 ths IH]; simpl.
  - by intros _ [|].
  - intros Hz [|t] th Hth; simpl in Hth.
    + injection Hth as <-. unfold remaining in Hz.
      destruct (at_pc th0); eauto; lia.
    + fold_remaining. eapply IH; [lia|done].
Qed.

Lemma work_bound ths :
  (∀ t th, ths !! t = Some th →
     at_pc th ≠ InSection ∧ ∀ c, at_pc th ≠ Suspended c) →
  (sum_list (remaining <$> ths) ≤ 3 * length ths)%nat.
Proof.
  induction ths as [|th0 ths IH]; simpl; [lia|]. intros H.
  fold_remaining.
  assert (remaining th0 ≤ 3)%nat.
  { destruct (H 0%nat th0 eq_refl) as [H1 H2]. unfold remaining.
    destruct (at_pc th0) as [| |c| |]; try lia. by destruct (H2 c). }
  assert (sum_list (remaining <$> ths) ≤ 3 * length ths)%nat.
  { apply IH. intros t th Hth. by apply (H (S t)). }
  lia.
Qed.

(** ** Invariants of the step relation *)

Lemma step_wf s l s' : sys_wf s → step s l s' → sys_wf s'.
Proof.
  intros [Hwf Hmx] Hstep.
  destruct Hstep as [s t th Hth Hpc Hm|s t th c Hth Hpc Hm Hb
                    |s t th q' w r ths' Hth Hpc Hm Hb Hw
                    |s t th c Hth Hpc|s t th r Hth Hpc];
    split; simpl; try done.
  - (* lock *)
    intros t'. rewrite (lookup_move _ _ _ _ _ Hth). case_decide as Ht.
    + subst. split; [eauto|done].
    + split; [congruence|]. intros Hin. apply Hmx in Hin. congruence.
  - (* wait *)
    intros t'. rewrite (lookup_move _ _ _ _ _ Hth). split; [done|].
    case_decide as Ht; [by intros (? & [= <-] & ?)|].
    intros Hin. apply Hmx in Hin. congruence.
  - (* unlock: the queue *)
    pose proof (body_sim (call th) (shared s) Hwf) as Hsim.
    rewrite Hb in Hsim. tauto.
  - (* unlock: the mutex *)
    intros t'. split; [done|]. intros (th' & Hth' & Hpc').
    apply woken_woken_from in Hw as [_ Hw].
    destruct (Hw t' th' Hth') as (th0 & Hth0 & _ & Hp).
    assert (at_pc th0 = InSection) as Hp0.
    { destruct Hp as [<-|[_ Hp]]; [done|congruence]. }
    rewrite (lookup_move _ _ _ _ _ Hth) in Hth0. case_decide as Ht.
    + injection Hth0 as <-. done.
    + assert (mutex s = Some t') by (apply Hmx; eauto). congruence.
  - (* spurious *)
    intros t'. rewrite (lookup_move _ _ _ _ _ Hth), Hmx.
    case_decide as Ht; [|done]. subst t'. split.
    + intros (th' & Hth' & Hpc'). congruence.
    + by intros (? & [= <-] & ?).
  - (* return *)
    intros t'. rewrite (lookup_move _ _ _ _ _ Hth), Hmx.
    case_decide as Ht; [|done]. subst t'. split.
    + intros (th' & Hth' & Hpc'). congruence.
    + by intros (? & [= <-] & ?).
Qed.

Lemma step_draining s l s' :
  sys_wf s → draining s → step s l s' → draining s'.
Proof.
  intros [Hwf Hmx] [Hsd Hno] Hstep.
  destruct Hstep as [s t th Hth Hpc Hm|s t th c Hth Hpc Hm Hb
                    |s t th q' w r ths' Hth Hpc Hm Hb Hw
                    |s t th c Hth Hpc|s t th r Hth Hpc];
    split; simpl; try done.
  - by apply nobody_suspended_move.
  - destruct (body_draining (call th) (shared s) Hwf Hsd) as (? & ? & ? & ? & _).
    congruence.
  - by eapply body_keeps_shutdown.
  - eapply woken_from_nobody; [|by eapply woken_woken_from].
    by apply nobody_suspended_move.
  - by destruct (Hno t th c Hth).
  - by apply nobody_suspended_move.
Qed.

(** The flag stays set and the queue stays well formed under every
    interleaving. *)
Lemma step_keeps_shutdown s l s' :
  step s l s' → Q.is_shutdown (shared s) = true →
  Q.is_shutdown (shared s') = true.
Proof.
  intros Hstep Hsd. destruct Hstep; simpl; try done.
  by eapply body_keeps_shutdown.
Qed.

Lemma step_capacity s l s' :
  sys_wf s → step s l s' → Q.capacity (shared s') = Q.capacity (shared s).
Proof.
  intros [Hwf _] Hstep.
  destruct Hstep as [| |s t th q' w r ths' Hth Hpc Hm Hb Hw| |]; simpl;
    try done.
  pose proof (body_sim (call th) (shared s) Hwf) as Hsim.
  rewrite Hb in Hsim. tauto.
Qed.

Lemma steps_wf n s s' :
  sys_wf s → steps n s s' →
  sys_wf s' ∧ Q.capacity (shared s') = Q.capacity (shared s).
Proof.
  intros Hwf Hsteps. induction Hsteps as [s|n s l s1 s2 Hstep _ IH]; [done|].
  destruct IH as [? Hcap]; [by eapply step_wf|].
  split; [done|]. rewrite Hcap. by eapply step_capacity.
Qed.

(** The bounds hold at every point of every interleaving of calls made by
    any number of threads on a freshly constructed queue. *)
Lemma bounds_invariant_threads a capacity h q0 h' calls n s :
  0 < capacity ≤ INT_MAX →
  queue_init a capacity h = (Some q0, h') →
  steps n {| shared := q0; mutex := None;
             threads := (λ o, {| call := o; at_pc := AtLock |}) <$> calls;
             stderr := [] |} s →
  Q.capacity (shared s) = capacity ∧
  0 ≤ Q.size (shared s) ≤ capacity ∧
  0 ≤ Q.front (shared s) < capacity ∧
  length (Q.buffer (shared s)) = Z.to_nat capacity.
Proof.
  intros Hc Hinit Hsteps. apply queue_init_Some in Hinit as ->.
  eapply steps_wf in Hsteps as [[(? & ? & ? & ? & _) _] Hcap].
  - simpl in Hcap. by rewrite <- Hcap.
  - split; simpl.
    + by apply fresh_queue_wf.
    + intros t. split; [done|]. intros (th & Hth & Hpc).
      rewrite list_lookup_fmap in Hth.
      destruct (calls !! t); [|done]. by injection Hth as <-.
Qed.

(** On a draining queue every step is one step less to go. *)
Lemma step_work s l s' :
  sys_wf s → draining s → step s l s' → (work s' + 1 = work s)%nat.
Proof.
  intros [Hwf Hmx] [Hsd Hno] Hstep. unfold work.
  destruct Hstep as [s t th Hth Hpc Hm|s t th c Hth Hpc Hm Hb
                    |s t th q' w r ths' Hth Hpc Hm Hb Hw
                    |s t th c Hth Hpc|s t th r Hth Hpc]; simpl.
  - pose proof (work_move _ _ _ InSection Hth) as H.
    assert (remaining th = 3%nat) as Hr by (unfold remaining; by rewrite Hpc).
    change (remaining (move th InSection)) with 2%nat in H. lia.
  - destruct (body_draining (call th) (shared s) Hwf Hsd) as (? & ? & ? & ? & _).
    congruence.
  - apply woken_nobody in Hw as ->; [|by apply nobody_suspended_move].
    pose proof (work_move _ _ _ (Unlocked r) Hth) as H.
    assert (remaining th = 2%nat) as Hr by (unfold remaining; by rewrite Hpc).
    change (remaining (move th (Unlocked r))) with 1%nat in H. lia.
  - by destruct (Hno t th c Hth).
  - pose proof (work_move _ _ _ (Returned r) Hth) as H.
    assert (remaining th = 1%nat) as Hr by (unfold remaining; by rewrite Hpc).
    change (remaining (move th (Returned r))) with 0%nat in H. lia.
Qed.

(** On a draining queue some thread can always take a step until every
    call has returned. *)
Lemma draining_progress s :
  sys_wf s → draining s → (0 < work s)%nat → ∃ l s', step s l s'.
Proof.
  intros [Hwf Hmx] [Hsd Hno] Hpos.
  assert (∀ t th, threads s !! t = Some th → at_pc th = InSection →
                  ∃ l s', step s l s') as Hsection.
  { intros t th Hth Hpc.
    destruct (body_draining (call th) (shared s) Hwf Hsd)
      as (q' & w & r & Hb & _).
    eexists _, _. eapply step_unlock; eauto.
    - apply Hmx. eauto.
    - apply woken_nobody_refl. by apply nobody_suspended_move. }
  destruct (work_pos_thread _ Hpos) as (t & th & Hth & Hr).
  unfold remaining in Hr. destruct (at_pc th) as [| |c|r|r] eqn:Hpc.
  - destruct (mutex s) as [t0|] eqn:Hm.
    + destruct (proj1 (Hmx t0) eq_refl) as (th0 & Hth0 & Hpc0). eauto.
    + eexists _, _. by eapply step_lock.
  - eauto.
  - by destruct (Hno t th c Hth).
  - eexists _, _. by eapply step_return.
  - lia.
Qed.

Lemma steps_draining n s s' :
  sys_wf s → draining s → steps n s s' →
  sys_wf s' ∧ draining s' ∧ (n + work s' = work s)%nat ∧
  ∃ k, contents (shared s') = drop k (contents (shared s)).
Proof.
  intros Hwf Hdr Hsteps. induction Hsteps as [s|n s l s1 s2 Hstep _ IH].
  - split_and!; [done..|]. by exists 0%nat.
  - pose proof (step_wf _ _ _ Hwf Hstep) as Hwf1.
    pose proof (step_draining _ _ _ Hwf Hdr Hstep) as Hdr1.
    pose proof (step_work _ _ _ Hwf Hdr Hstep) as Hw1.
    destruct (IH Hwf1 Hdr1) as (? & ? & ? & k & Hk).
    split_and!; [done..|lia|].
    assert (∃ k1, contents (shared s1) = drop k1 (contents (shared s)))
      as [k1 Hk1].
    { destruct Hwf as [Hq _], Hdr as [Hsd _].
      destruct Hstep as [| |s t th q' w r ths' Hth Hpc Hm Hb Hw| |]; simpl;
        try by exists 0%nat.
      destruct (body_draining (call th) (shared s) Hq Hsd)
        as (q1 & w1 & r1 & Hb1 & _ & _ & Hdrop).
      rewrite Hb in Hb1. by injection Hb1 as -> _ _. }
    exists (k1 + k)%nat. by rewrite Hk, Hk1, drop_drop.
Qed.

(** A draining system does run to completion: there is an execution, of
    exactly [work s] steps, after which every call has returned. *)
Lemma draining_terminates k : ∀ s,
  sys_wf s → draining s → work s = k →
  ∃ s', steps k s s' ∧ all_returned s'.
Proof.
  induction k as [|k IH]; intros s Hwf Hdr Hk.
  - exists s. split; [constructor|by apply work_zero_returned].
  - destruct (draining_progress s Hwf Hdr) as (l & s1 & Hstep); [lia|].
    pose proof (step_work _ _ _ Hwf Hdr Hstep) as Hw.
    destruct (IH s1) as (s' & Hsteps & Hall).
    + by eapply step_wf.
    + by eapply step_draining.
    + lia.
    + exists s'. split; [by econstructor|done].
Qed.

(** What the unlock step of a woken enqueuer or dequeuer does on a
    draining queue: the enqueuer leaves the queue as it is, the dequeuer
    takes the oldest item or, when there is none, returns [NULL]. *)
Lemma draining_unlock_outcome s t th s' :
  sys_wf s → draining s → threads s !! t = Some th → step s (Unlock t) s' →
  match call th with
  | Enqueue _ =>
    shared s' = shared s ∧ threads s' !! t = Some (move th (Unlocked RVoid))
  | Dequeue =>
    if Q.size (shared s) =? 0
    then shared s' = shared s ∧
         threads s' !! t = Some (move th (Unlocked (RPtr NULL)))
    else ∃ x, contents (shared s) = x :: contents (shared s') ∧
              threads s' !! t = Some (move th (Unlocked (RPtr x)))
  | _ => True
  end.
Proof.
  intros [Hwf Hmx] [Hsd Hno] Hth Hstep.
  inversion Hstep as [| |s0 t0 th0 q' w r ths' Hth0 Hpc Hm Hb Hw| |]; subst.
  rewrite Hth in Hth0. injection Hth0 as <-.
  apply woken_nobody in Hw as ->; [|by apply nobody_suspended_move].
  simpl. rewrite (lookup_move _ _ _ _ _ Hth), decide_True by done.
  destruct (call th) as [x| | | |] eqn:Hcall; try done; simpl in Hb.
  - rewrite (enqueue_closed (shared s) x Hsd) in Hb. simpl in Hb. by injection Hb as <- _ <-.
  - destruct (Z.eqb_spec (Q.size (shared s)) 0) as [Hz|Hnz].
    + unfold dequeue in Hb. rewrite Hz, Hsd in Hb. simpl in Hb.
      by injection Hb as <- _ <-.
    + destruct Hwf as (Hc & Hlen & Hs & Hrest).
      assert (wf (shared s)) as Hwf by done.
      rewrite dequeue_eq in Hb by (done || lia). simpl in Hb.
      injection Hb as <- _ <-. exists (head_item (shared s)).
      split; [|done]. apply popped_contents; [done|lia].
Qed.

(** ** Shutdown wakes everybody *)

(** C9 — Shutdown wakes all: when a thread inside [queue_shutdown]
    reaches its unlock, the flag is set and both conditions have been
    broadcast, so every thread that was suspended in Enqueue or Dequeue is
    now re-acquiring the mutex.  From then on, under every interleaving:
    nobody suspends again; as long as a call has not returned some thread
    can take a step; every step brings the system one step closer to all
    calls having returned, which happens after at most three steps per
    thread; no new item is accepted; and a woken enqueuer leaves the queue
    untouched while a woken dequeuer returns the oldest item or, once the
    queue is drained, [NULL]. *)
Theorem shutdown_wakes_all s t th s1 :
  sys_wf s → threads s !! t = Some th → call th = Shutdown →
  step s (Unlock t) s1 →
  Q.is_shutdown (shared s1) = true ∧
  threads s1 =
    broadcast not_full
      (broadcast not_empty (<[t := move th (Unlocked RVoid)]> (threads s))) ∧
  (∀ t' th' c,
     threads s !! t' = Some th' → at_pc th' = Suspended c →
     threads s1 !! t' = Some (move th' AtLock)) ∧
  (work s1 ≤ 3 * length (threads s))%nat ∧
  (∃ s2, steps (work s1) s1 s2 ∧ all_returned s2) ∧
  ∀ n s2, steps n s1 s2 →
    (n + work s2 = work s1)%nat ∧
    nobody_suspended (threads s2) ∧
    ((0 < work s2)%nat → ∃ l s3, step s2 l s3) ∧
    (work s2 = 0%nat → all_returned s2) ∧
    (∃ k, contents (shared s2) = drop k (contents (shared s1))) ∧
    (∀ t' th' s3,
       threads s2 !! t' = Some th' → step s2 (Unlock t') s3 →
       match call th' with
       | Enqueue _ =>
         shared s3 = shared s2 ∧
         threads s3 !! t' = Some (move th' (Unlocked RVoid))
       | Dequeue =>
         if Q.size (shared s2) =? 0
         then shared s3 = shared s2 ∧
              threads s3 !! t' = Some (move th' (Unlocked (RPtr NULL)))
         else ∃ x, contents (shared s2) = x :: contents (shared s3) ∧
                   threads s3 !! t' = Some (move th' (Unlocked (RPtr x)))
       | _ => True
       end).
Proof.
  intros Hwf Hth Hcall Hstep.
  pose proof (step_wf _ _ _ Hwf Hstep) as Hwf1.
  inversion Hstep as [| |s0 t0 th0 q' w r ths' Hth0 Hpc Hm Hb Hw| |]; subst.
  rewrite Hth in Hth0. injection Hth0 as <-.
  rewrite Hcall in Hb. simpl in Hb. injection Hb as <- <- <-.
  apply broadcast_both in Hw as [Hths Hno]. simpl.
  assert (draining {| shared := shut (shared s); mutex := None;
                      threads := ths'; stderr := stderr s |}) as Hdr1 by done.
  split_and!; [done..| | | |].
  - (* every suspended thread is woken *)
    intros t' th' c Hth' Hpc'. rewrite Hths. unfold broadcast.
    rewrite !list_lookup_fmap, (lookup_move _ _ _ _ _ Hth).
    rewrite decide_False by (intros ->; congruence).
    rewrite Hth'. simpl. f_equal. unfold wake_thread at 2. rewrite Hpc'.
    destruct c; simpl; [|done]. unfold wake_thread. by rewrite Hpc'.
  - (* the bound *)
    replace (length (threads s)) with (length ths')
      by (rewrite Hths; unfold broadcast;
          by rewrite !length_fmap, length_insert).
    apply work_bound. intros t' th' Hth'. split; [|by eauto].
    intros Hin. destruct Hwf1 as [_ Hmx1].
    assert (None = Some t') as Habs; [|done].
    apply (Hmx1 t'). eauto.
  - (* there is a complete execution *)
    by apply draining_terminates.
  - (* every execution from here *)
    intros n s2 Hsteps.
    destruct (steps_draining _ _ _ Hwf1 Hdr1 Hsteps) as (Hwf2 & Hdr2 & Hn & Hk).
    split_and!; [done|apply Hdr2| |apply work_zero_returned|done|].
    + by apply draining_progress.
    + intros t' th' s3. by apply draining_unlock_outcome.
Qed.

Lemma blocked_system_wf : sys_wf blocked_system.
Proof.
  split.
  - apply pushed_wf; [apply fresh_queue_wf; unfold INT_MAX; lia|simpl; lia].
  - intros t. split.
    + intros [= <-]. by eexists.
    + intros (th & Hth & Hpc).
      destruct t as [|[|[|t]]]; simpl in Hth; try done;
        injection Hth as <-; done.
Qed.

Lemma blocked_system_shutdown : step blocked_system (Unlock 2) woken_system.
Proof.
  eapply (step_unlock blocked_system 2
            {| call := Shutdown; at_pc := InSection |}
            (shut full_one) _ RVoid); try done.
  do 2 constructor. apply woken_nil.
Qed.

Lemma shutdown_wakes_all_witness :
  threads woken_system !! 0%nat = Some {| call := Enqueue 22; at_pc := AtLock |} ∧
  (work woken_system ≤ 9)%nat ∧
  ∀ n s2, steps n woken_system s2 →
    (n + work s2 = work woken_system)%nat ∧
    ((0 < work s2)%nat → ∃ l s3, step s2 l s3).
Proof.
  destruct (shutdown_wakes_all blocked_system 2
              {| call := Shutdown; at_pc := InSection |} woken_system
              blocked_system_wf eq_refl eq_refl blocked_system_shutdown)
    as (_ & _ & Hwoken & Hbound & _ & Hruns).
  split_and!.
  - apply (Hwoken 0%nat {| call := Enqueue 22; at_pc := Suspended not_full |}
             not_full); reflexivity.
  - exact Hbound.
  - intros n s2 Hsteps.
    destruct (Hruns n s2 Hsteps) as (Hn & _ & Hprog & _). by split.
Defined.

(** * Further properties of the code *)

(** ** The capacity bound and the empty queue *)

Lemma enqueue_full q x :
  Q.size q = Q.capacity q → Q.is_shutdown q = false →
  enqueue q x = cond_wait not_full.
Proof. intros Hfull Hsd. unfold enqueue. by rewrite Hfull, Z.eqb_refl, Hsd. Qed.

Lemma dequeue_empty q :
  Q.size q = 0 → Q.is_shutdown q = false → dequeue q = cond_wait not_empty.
Proof. intros Hz Hsd. unfold dequeue. by rewrite Hz, Hsd. Qed.

(** Capacity bound: on an open queue with room for [k] more items, a
    caller that enqueues more than [k] items gets the first [k] accepted,
    in order, and then suspends on [not_full] with the queue full and the
    item it was enqueuing not stored. *)
Theorem capacity_bound capacity q xs :
  0 < capacity ≤ INT_MAX → reachable capacity q →
  Q.is_shutdown q = false →
  let k := Z.to_nat (capacity - Q.size q) in
  (k < length xs)%nat →
  let t := run q (Enqueue <$> xs) in
  ended t = Blocked not_full ∧
  returned t = replicate k RVoid ∧
  contents (final t) = contents q ++ take k xs ∧
  Q.size (final t) = capacity.
Proof.
  intros Hc Hreach Hsd k Hlen.
  destruct (reachable_wf capacity q Hc Hreach) as (Hwf & Hcap).
  pose proof Hwf as (_ & _ & Hs & _).
  rewrite <- (take_drop k xs), fmap_app.
  destruct (run_enqueues (take k xs) q Hwf Hsd)
    as (He & Hr & Hp & Hwf1 & Hsd1 & Hc1 & Hk1).
  { rewrite length_take. lia. }
  rewrite length_take, Nat.min_l in Hr by lia.
  cbv zeta. rewrite run_app by done.
  set (q1 := final (run q (Enqueue <$> take k xs))) in *.
  assert (Q.size q1 = capacity) as Hfull.
  { pose proof (contents_length q1) as Hl. rewrite Hk1, length_app in Hl.
    rewrite contents_length, length_take in Hl.
    destruct Hwf1 as (_ & _ & Hs1 & _). lia. }
  destruct (drop k xs) as [|x rest] eqn:Hdrop.
  { apply (f_equal length) in Hdrop. rewrite length_drop in Hdrop.
    simpl in Hdrop. lia. }
  rewrite take_app_length' by (rewrite length_take; lia).
  cbn [fmap list_fmap run body].
  rewrite enqueue_full by congruence. cbn [returning final returned ended].
  by rewrite Hr, app_nil_r.
Qed.

Lemma capacity_bound_witness :
  let t := run (fresh_queue (garbage generous) 2)
               (Enqueue <$> [11; 22; 33]) in
  ended t = Blocked not_full ∧ contents (final t) = [11; 22].
Proof.
  destruct (capacity_bound 2 (fresh_queue (garbage generous) 2) [11; 22; 33])
    as (He & _ & Hk & _).
  - unfold INT_MAX. lia.
  - apply reachable_fresh.
  - reflexivity.
  - simpl. lia.
  - split; [exact He|exact Hk].
Defined.

(** Empty-block: on an open queue holding [k] items, a caller that
    dequeues more than [k] times gets the [k] resident items, oldest
    first, and then suspends on [not_empty] with the queue empty. *)
Theorem empty_block capacity q n :
  0 < capacity ≤ INT_MAX → reachable capacity q →
  Q.is_shutdown q = false →
  (Z.to_nat (Q.size q) < n)%nat →
  let t := run q (replicate n Dequeue) in
  ended t = Blocked not_empty ∧
  returned t = RPtr <$> contents q ∧
  Q.size (final t) = 0.
Proof.
  intros Hc Hreach Hsd Hn.
  destruct (reachable_wf capacity q Hc Hreach) as (Hwf & Hcap).
  pose proof (contents_length q) as Hlen.
  replace n with (length (contents q) + S (n - S (length (contents q))))%nat
    by lia.
  rewrite replicate_add.
  destruct (run_dequeues (length (contents q)) q Hwf)
    as (He & Hr & Hp & Hwf1 & Hsd1 & _ & Hk1); [done|].
  rewrite firstn_all in Hr. rewrite drop_all in Hk1.
  cbv zeta. rewrite run_app by done.
  set (q1 := final (run q (replicate (length (contents q)) Dequeue))) in *.
  assert (Q.size q1 = 0) as Hz by by apply contents_empty_iff.
  cbn [replicate run body].
  rewrite dequeue_empty by congruence. cbn [returning final returned ended].
  by rewrite Hr, app_nil_r.
Qed.

Lemma empty_block_witness :
  let q := final (run (fresh_queue (garbage generous) 2) [Enqueue 11]) in
  let t := run q (replicate 2 Dequeue) in
  ended t = Blocked not_empty ∧ returned t = [RPtr 11].
Proof.
  assert (reachable 2 (final (run (fresh_queue (garbage generous) 2) [Enqueue 11])))
    as Hreach.
  { eexists generous, ∅, _, _, [Enqueue 11].
    split; [by apply queue_init_success|done]. }
  destruct (empty_block 2 _ 2 ltac:(unfold INT_MAX; lia) Hreach eq_refl)
    as (He & Hr & _).
  - simpl. lia.
  - split; [exact He|exact Hr].
Defined.

(** ** Conservation of items *)

Lemma fifo_conservation_wf ops : ∀ q,
  wf q → Q.is_shutdown q = false → Shutdown ∉ ops →
  ended (run q ops) = Finished →
  contents q ++ enq_args ops =
  deq_results (returned (run q ops)) ++ contents (final (run q ops)).
Proof.
  induction ops as [|o ops IH]; intros q Hwf Hsd Hno Hend.
  - simpl. by rewrite app_nil_r.
  - apply not_elem_of_cons in Hno as [Ho Hno].
    pose proof Hwf as (_ & _ & Hs & _).
    destruct o as [x| | | |]; try done; cbn [run body] in Hend |- *.
    + (* enqueue *)
      destruct (decide (Q.size q = Q.capacity q)) as [Hfull|Hroom].
      { by rewrite enqueue_full in Hend. }
      rewrite enqueue_eq in Hend |- * by (done || lia).
      cbn [returning final returned ended] in Hend |- *.
      change (enq_args (Enqueue x :: ops)) with (x :: enq_args ops).
      change (deq_results (RVoid :: ?l)) with (deq_results l).
      rewrite <- (IH (pushed q x)); try done.
      * rewrite pushed_contents by (done || lia). by rewrite <- app_assoc.
      * apply pushed_wf; [done|lia].
    + (* dequeue *)
      destruct (decide (Q.size q = 0)) as [Hz|Hnz].
      { by rewrite dequeue_empty in Hend. }
      rewrite dequeue_eq in Hend |- * by (done || lia).
      cbn [returning final returned ended] in Hend |- *.
      change (enq_args (Dequeue :: ops)) with (enq_args ops).
      change (deq_results (RPtr ?p :: ?l)) with (p :: deq_results l).
      rewrite (popped_contents q) by (done || lia).
      simpl. f_equal. apply IH; try done. apply popped_wf; [done|lia].
    + (* is_empty *)
      cbn [is_empty returning final returned ended] in Hend |- *.
      by apply IH.
    + (* is_shutdown *)
      cbn [is_shutdown returning final returned ended] in Hend |- *.
      by apply IH.
Qed.

(** FIFO under any mix of calls: when a caller's sequence of Enqueue,
    Dequeue, IsEmpty and IsShutdown calls on an open queue has returned,
    the items resident before followed by the enqueued ones are exactly
    the dequeued ones followed by those still resident — nothing is lost,
    duplicated or reordered. *)
Theorem fifo_conservation capacity q ops :
  0 < capacity ≤ INT_MAX → reachable capacity q →
  Q.is_shutdown q = false → Shutdown ∉ ops →
  ended (run q ops) = Finished →
  contents q ++ enq_args ops =
  deq_results (returned (run q ops)) ++ contents (final (run q ops)).
Proof.
  intros Hc Hreach. destruct (reachable_wf capacity q Hc Hreach) as (Hwf & _).
  by apply fifo_conservation_wf.
Qed.

Lemma fifo_conservation_witness :
  let ops := [Enqueue 11; Enqueue 22; Dequeue; Enqueue 33; IsEmpty; Dequeue] in
  let t := run (fresh_queue (garbage generous) 2) ops in
  [] ++ [11; 22; 33] = deq_results (returned t) ++ contents (final t).
Proof.
  apply (fifo_conservation 2 (fresh_queue (garbage generous) 2)
           [Enqueue 11; Enqueue 22; Dequeue; Enqueue 33; IsEmpty; Dequeue]).
  - unfold INT_MAX. lia.
  - apply reachable_fresh.
  - reflexivity.
  - intros Hin. repeat (apply elem_of_cons in Hin as [Hin|Hin]; [done|]).
    by apply elem_of_nil in Hin.
  - reflexivity.
Defined.

(** ** The shutdown notice *)

Lemma epilogue_not_shutdown o : o ≠ Shutdown → epilogue o = [].
Proof. by destruct o. Qed.

(** The only thing ever written to [stderr] is the shutdown notice, once
    for each Shutdown call that was made, repeated calls included; and a
    sequence that has returned has made all its calls. *)
Theorem notice_per_shutdown q ops :
  let t := run q ops in
  printed t = replicate (shutdowns (length (returned t)) ops) shutdown_notice ∧
  (ended t = Finished → length (returned t) = length ops).
Proof.
  revert q. induction ops as [|o ops IH]; intros q; [done|].
  cbn [run]. destruct (body o q) as [c|q' w r|]; [done| |done].
  destruct (IH q') as [Hp Hl]. cbn [printed returned ended length] in *.
  split; [|intros He; by rewrite Hl].
  rewrite Hp. unfold shutdowns. cbn [take]. rewrite filter_cons.
  case_decide as Ho.
  - by subst o.
  - by rewrite epilogue_not_shutdown.
Qed.

(** ** The status queries *)

Lemma body_flag o q q' w r :
  body o q = unlock q' w r →
  Q.is_shutdown q' = Q.is_shutdown q || bool_decide (o = Shutdown).
Proof.
  destruct o as [x| | | |]; simpl.
  - unfold enqueue.
    destruct ((Q.size q =? Q.capacity q) && negb (Q.is_shutdown q)); [done|].
    destruct (Q.is_shutdown q) eqn:Hsd; [by intros [= <- _ _]; rewrite Hsd|].
    destruct (int_add (Q.rear q) 1); simpl; [|done].
    destruct (int_rem _ _); simpl; [|done].
    destruct (store _ _ _); simpl; [|done].
    destruct (int_add (Q.size q) 1); simpl; [|done].
    by intros [= <- _ _].
  - unfold dequeue.
    destruct ((Q.size q =? 0) && negb (Q.is_shutdown q)); [done|].
    destruct (Q.size q =? 0); [intros [= <- _ _]; by rewrite orb_false_r|].
    destruct (load _ _); simpl; [|done].
    destruct (int_add _ _); simpl; [|done].
    destruct (int_rem _ _); simpl; [|done].
    destruct (int_sub _ _); simpl; [|done].
    intros [= <- _ _]. simpl. by rewrite orb_false_r.
  - intros [= <- _ _]. simpl. by rewrite orb_true_r.
  - intros [= <- _ _]. by rewrite orb_false_r.
  - intros [= <- _ _]. by rewrite orb_false_r.
Qed.

Lemma run_flag ops : ∀ q,
  ended (run q ops) = Finished →
  Q.is_shutdown (final (run q ops)) =
  Q.is_shutdown q || bool_decide (Shutdown ∈ ops).
Proof.
  induction ops as [|o ops IH]; intros q Hend; cbn [run] in *.
  - rewrite bool_decide_eq_false_2; [by rewrite orb_false_r|].
    apply not_elem_of_nil.
  - destruct (body o q) as [c|q' w r|] eqn:Hb; cbn [final ended] in *;
      try done.
    rewrite (IH q' Hend), (body_flag _ _ _ _ _ Hb), <- orb_assoc. f_equal.
    destruct (decide (o = Shutdown)) as [->|Ho].
    + rewrite (bool_decide_eq_true_2 (Shutdown = Shutdown)) by done.
      by rewrite (bool_decide_eq_true_2 (Shutdown ∈ Shutdown :: ops)) by by left.
    + rewrite (bool_decide_eq_false_2 (o = Shutdown)) by done.
      rewrite orb_false_l.
      apply bool_decide_ext. rewrite elem_of_cons.
      split; [by right|]. intros [Heq|Hin]; [by destruct Ho|done].
Qed.

(** The status queries are accurate and are pure observers: after any
    history of calls that has returned on a constructed queue, IsShutdown
    answers true exactly when the history contains a Shutdown call, and
    IsEmpty answers true exactly when no accepted item is still live;
    both unlock with the queue untouched and without waking anybody. *)
Theorem status_queries a capacity h q0 h' history :
  0 < capacity ≤ INT_MAX →
  queue_init a capacity h = (Some q0, h') →
  ended (run q0 history) = Finished →
  let q := final (run q0 history) in
  let live :=
    items (fifo_run capacity {| items := []; closed := false |} history) in
  is_shutdown q = unlock q [] (bool_decide (Shutdown ∈ history)) ∧
  is_empty q = unlock q [] (bool_decide (live = [])).
Proof.
  intros Hc Hinit Hend. apply queue_init_Some in Hinit as ->.
  pose proof (fresh_queue_wf (garbage a) capacity Hc) as Hwf0.
  destruct (run_sim history _ Hwf0) as (Hwf & _ & _ & Habs).
  simpl in Habs.
  change {| items := []; closed := false |}
    with (abstraction (fresh_queue (garbage a) capacity)).
  cbv zeta. rewrite <- Habs. cbn [items abstraction].
  split.
  - unfold is_shutdown. by rewrite run_flag.
  - unfold is_empty. f_equal.
    destruct (Z.eqb_spec (Q.size (final (run (fresh_queue (garbage a) capacity)
                                             history))) 0) as [Hz|Hnz].
    + symmetry. apply bool_decide_eq_true_2. by apply contents_empty_iff.
    + symmetry. apply bool_decide_eq_false_2. by rewrite contents_empty_iff.
Qed.

Lemma status_queries_witness :
  let q := final (run (fresh_queue (garbage generous) 2)
                      [Enqueue 11; Shutdown; Dequeue]) in
  is_shutdown q = unlock q [] true ∧ is_empty q = unlock q [] true.
Proof.
  apply (status_queries generous 2 ∅ _ _ [Enqueue 11; Shutdown; Dequeue]
           ltac:(unfold INT_MAX; lia)
           (queue_init_success generous 2 ∅ eq_refl eq_refl) eq_refl).
Defined.

(** ** Destruction *)

Lemma free_fresh h : free (fresh h) ({[fresh h]} ∪ h) = h.
Proof.
  pose proof (is_fresh h) as Hfresh. unfold free.
  apply set_eq. intros b.
  rewrite elem_of_difference, elem_of_union, elem_of_singleton.
  split; [by intros [[?|?] ?]|].
  intros Hb. split; [by right|]. by intros ->.
Qed.

Lemma free_live_fresh h : free_live (fresh h) ({[fresh h]} ∪ h) = Ok h.
Proof.
  unfold free_live. rewrite decide_True, free_fresh; [done|].
  apply elem_of_union_l. by apply elem_of_singleton.
Qed.

Lemma nobody_suspended_existsb c ths :
  nobody_suspended ths → existsb (suspended_at c) ths = false.
Proof.
  intros Hno. induction ths as [|th ths IH]; [done|]. simpl.
  rewrite IH, orb_false_r.
  - unfold suspended_at. destruct (at_pc th) as [| |c'| |] eqn:Hpc; try done.
    by destruct (Hno 0%nat th c').
  - intros t th' c'. apply (Hno (S t)).
Qed.

(** Construction and destruction are inverse on the heap: destroying a
    queue that no thread is using releases exactly the two blocks
    [queue_init] allocated, so the heap is what it was before the queue
    existed.  Destroying the same handle once more is undefined, and
    destroying the null handle does nothing. *)
Theorem init_destroy a capacity h q h' s :
  queue_init a capacity h = (Some q, h') →
  mutex s = None → nobody_suspended (threads s) →
  ∃ hd,
    queue_blocks a h = Some hd ∧
    queue_destroy (Some hd) s h' = Ok h ∧
    queue_destroy (Some hd) s h = UB ∧
    queue_destroy None s h' = Ok h'.
Proof.
  intros Hinit Hm Hno.
  assert (struct_ok a = true ∧ buffer_ok a = true) as [H1 H2].
  { destruct (struct_ok a) eqn:H1; [destruct (buffer_ok a) eqn:H2|]; try done.
    - rewrite queue_init_failure in Hinit by auto. done.
    - rewrite queue_init_failure in Hinit by auto. done. }
  rewrite queue_init_success in Hinit by done. injection Hinit as _ <-.
  unfold queue_blocks, malloc. rewrite H1, H2. eexists. split; [done|].
  unfold queue_destroy, pthread_mutex_destroy, pthread_cond_destroy.
  rewrite Hm, !nobody_suspended_existsb by done. simpl.
  split_and!; [| |done].
  - rewrite free_live_fresh. simpl. apply free_live_fresh.
  - unfold free_live. rewrite decide_False; [done|].
    pose proof (is_fresh ({[fresh h]} ∪ h)) as Hfresh.
    intros Hin. apply Hfresh. by apply elem_of_union_r.
Qed.

Lemma init_destroy_witness :
  ∃ hd, queue_blocks generous (∅ : heap) = Some hd ∧
        queue_destroy (Some hd) (initial (fresh_queue (garbage generous) 3) [])
                      (snd (queue_init generous 3 (∅ : heap))) = Ok (∅ : heap).
Proof.
  rewrite (queue_init_success generous 3 ∅ eq_refl eq_refl). cbn [snd].
  destruct (init_destroy generous 3 ∅ _ _
              (initial (fresh_queue (garbage generous) 3) [])
              (queue_init_success generous 3 ∅ eq_refl eq_refl) eq_refl)
    as (hd & Hb & Hd & _).
  - by intros [|].
  - by exists hd.
Defined.

(** ** Safety of every interleaving *)

Lemma signalled_total c ths : ∃ ths', signalled c ths ths'.
Proof.
  destruct (list_find (λ th, at_pc th = Suspended c) ths) as [[t th]|] eqn:Hf.
  - apply list_find_Some in Hf as (Hth & Hpc & _).
    eexists. by eapply signal_one.
  - apply list_find_None in Hf. exists ths. apply signal_nobody.
    intros t th Hth Hpc. rewrite Forall_lookup in Hf. by eapply Hf.
Qed.

Lemma woken_total w : ∀ ths, ∃ ths', woken w ths ths'.
Proof.
  induction w as [|[c|c] w IH]; intros ths.
  - eexists. constructor.
  - destruct (signalled_total c ths) as [ths1 H1].
    destruct (IH ths1) as [ths2 H2]. eexists. by econstructor.
  - destruct (IH (broadcast c ths)) as [ths2 H2]. eexists. by constructor.
Qed.

(** The owner of the mutex can always go on, whatever the state of the
    other threads: its critical section is defined and either suspends or
    reaches the unlock. *)
Lemma owner_steps s t th :
  sys_wf s → threads s !! t = Some th → at_pc th = InSection →
  body (call th) (shared s) ≠ undefined ∧
  ∃ l s', step s l s' ∧ (l = Unlock t ∨ ∃ c, l = Wait t c).
Proof.
  intros [Hwf Hmx] Hth Hpc.
  assert (mutex s = Some t) as Hm by (apply Hmx; eauto).
  pose proof (body_sim (call th) (shared s) Hwf) as Hsim.
  destruct (body (call th) (shared s)) as [c|q' w r|] eqn:Hb; [| |done].
  - split; [done|]. eexists _, _. split; [by eapply step_wait|eauto].
  - split; [done|].
    destruct (woken_total w (<[t := move th (Unlocked r)]> (threads s)))
      as [ths' Hw].
    eexists _, _. split; [by eapply step_unlock|auto].
Qed.

Lemma initial_wf g capacity calls :
  0 < capacity ≤ INT_MAX → sys_wf (initial (fresh_queue g capacity) calls).
Proof.
  intros Hc. split; simpl.
  - by apply fresh_queue_wf.
  - intros t. split; [done|]. intros (th & Hth & Hpc).
    rewrite list_lookup_fmap in Hth.
    destruct (calls !! t); [|done]. by injection Hth as <-.
Qed.

(** Thread safety: in every state that any interleaving of calls by any
    number of threads can reach on a constructed queue, at most one
    thread is inside a critical section and it is the owner of the mutex;
    that thread's critical section is defined (no access outside the
    buffer, no overflow, no division by zero) and it can take its step;
    and the size and the front index are within bounds. *)
Theorem interleaving_safe a capacity h q0 h' calls n s :
  0 < capacity ≤ INT_MAX →
  queue_init a capacity h = (Some q0, h') →
  steps n (initial q0 calls) s →
  (∀ t1 t2 th1 th2,
     threads s !! t1 = Some th1 → threads s !! t2 = Some th2 →
     at_pc th1 = InSection → at_pc th2 = InSection → t1 = t2) ∧
  (∀ t th,
     threads s !! t = Some th → at_pc th = InSection →
     mutex s = Some t ∧
     body (call th) (shared s) ≠ undefined ∧
     ∃ l s', step s l s' ∧ (l = Unlock t ∨ ∃ c, l = Wait t c)) ∧
  0 ≤ Q.size (shared s) ≤ capacity ∧
  0 ≤ Q.front (shared s) < capacity ∧
  length (Q.buffer (shared s)) = Z.to_nat capacity.
Proof.
  intros Hc Hinit Hsteps. apply queue_init_Some in Hinit as ->.
  pose proof (initial_wf (garbage a) capacity calls Hc) as Hwf0.
  destruct (steps_wf _ _ _ Hwf0 Hsteps) as [Hwf Hcap]. simpl in Hcap.
  pose proof Hwf as [(_ & Hlen & Hs & Hf & _) Hmx].
  rewrite Hcap in Hlen, Hs, Hf.
  split_and!; try done; try lia.
  - intros t1 t2 th1 th2 H1 H2 Hp1 Hp2.
    assert (mutex s = Some t1) as E1 by (apply Hmx; eauto).
    assert (mutex s = Some t2) as E2 by (apply Hmx; eauto).
    congruence.
  - intros t th Hth Hpc. split; [apply Hmx; eauto|].
    by apply owner_steps.
Qed.

Lemma handoff_two_steps :
  ∃ s, steps 2 handoff_start s ∧ suspended_on not_empty (threads s).
Proof.
  eexists. split.
  - eapply steps_S; [by eapply (step_lock _ 1%nat)|].
    eapply steps_S; [by eapply (step_wait _ 1%nat)|].
    apply steps_O.
  - by eexists 1%nat, _.
Qed.

Lemma interleaving_safe_witness :
  ∃ s, steps 2 handoff_start s ∧ 0 ≤ Q.size (shared s) ≤ 1.
Proof.
  destruct handoff_two_steps as (s & Hsteps & _).
  exists s. split; [done|].
  apply (interleaving_safe generous 1 ∅ _ _ [Enqueue 11; Dequeue] 2 s
           ltac:(unfold INT_MAX; lia)
           (queue_init_success generous 1 ∅ eq_refl eq_refl) Hsteps).
Defined.

(** ** Every interleaving is a sequence of calls *)










(** ** Wake-ups are not lost *)

Lemma contenders_insert c (ths : list thread) t th th' :
  ths !! t = Some th →
  (contenders c (<[t := th']> ths) + contender c th =
   contenders c ths + contender c th')%nat.
Proof.
  unfold contenders. revert t.
  induction ths as [|th0 ths IH]; intros [|t] Hth; simpl in *; try done.
  - injection Hth as ->. lia.
  - specialize (IH t Hth).
    change (list_fmap thread nat (contender c))
      with (fmap (M:=list) (contender c)) in *.
    lia.
Qed.

Lemma suspended_on_insert c (ths : list thread) t th th' :
  ths !! t = Some th → suspended_on c (<[t := th']> ths) →
  at_pc th' = Suspended c ∨ suspended_on c ths.
Proof.
  intros Hth (t1 & th1 & Hth1 & Hpc1).
  destruct (decide (t = t1)) as [<-|Hne].
  - rewrite list_lookup_insert_eq in Hth1 by by eapply lookup_lt_Some.
    injection Hth1 as <-. by left.
  - rewrite list_lookup_insert_ne in Hth1 by done. right. by exists t1, th1.
Qed.

Lemma contender_idle c th p :
  waits_in c (call th) = false →
  contender c th = 0%nat ∧ contender c (move th p) = 0%nat.
Proof. intros H. unfold contender. simpl. by rewrite H. Qed.

Lemma contender_move c th p :
  waits_in c (call th) = true →
  contender c (move th p) =
    match p with AtLock | InSection => 1%nat | _ => 0%nat end.
Proof. intros H. unfold contender. simpl. by rewrite H. Qed.

Lemma contender_here c th :
  waits_in c (call th) = true →
  contender c th =
    match at_pc th with AtLock | InSection => 1%nat | _ => 0%nat end.
Proof. intros H. unfold contender. by rewrite H. Qed.

Lemma waits_in_other c o : waits_in c o = true → waits_in (other c) o = false.
Proof. by destruct c, o. Qed.

Lemma cond_cases c c0 : c = c0 ∨ c = other c0.
Proof. destruct c, c0; auto. Qed.

Lemma other_ne c : other c ≠ c.
Proof. by destruct c. Qed.

(** A call suspends only on its own condition, only while the queue is
    open, and only when there is nothing of what it waits for. *)
Lemma body_wait o q c :
  body o q = cond_wait c →
  waits_in c o = true ∧ Q.is_shutdown q = false ∧ supply c q = 0.
Proof.
  destruct o as [x| | | |]; simpl; try done.
  - unfold enqueue.
    destruct ((Q.size q =? Q.capacity q) && negb (Q.is_shutdown q)) eqn:Hcond.
    + intros [= <-]. apply andb_prop in Hcond as [Hfull Hsd].
      apply Z.eqb_eq in Hfull. apply negb_true_iff in Hsd.
      simpl. split_and!; [done..|lia].
    + destruct (Q.is_shutdown q); [done|].
      destruct (int_add (Q.rear q) 1); simpl; [|done].
      destruct (int_rem _ _); simpl; [|done].
      destruct (store _ _ _); simpl; [|done].
      destruct (int_add (Q.size q) 1); simpl; done.
  - unfold dequeue.
    destruct ((Q.size q =? 0) && negb (Q.is_shutdown q)) eqn:Hcond.
    + intros [= <-]. apply andb_prop in Hcond as [Hz Hsd].
      apply Z.eqb_eq in Hz. apply negb_true_iff in Hsd. by simpl.
    + destruct (Q.size q =? 0); [done|].
      destruct (load _ _); simpl; [|done].
      destruct (int_add _ _); simpl; [|done].
      destruct (int_rem _ _); simpl; [|done].
      destruct (int_sub _ _); simpl; done.
Qed.

(** An Enqueue or Dequeue that reaches its unlock on an open queue uses
    up one unit of what it waits for, provides one unit of what the other
    side waits for, and signals the other side once. *)
Lemma body_transfer o q q' w r c :
  wf q → Q.is_shutdown q = false → waits_in c o = true →
  body o q = unlock q' w r →
  w = [pthread_cond_signal (other c)] ∧
  supply c q' = supply c q - 1 ∧
  supply (other c) q' = supply (other c) q + 1.
Proof.
  intros Hwf Hsd Hw Hb. pose proof Hwf as (_ & _ & Hs & _).
  destruct c, o as [x| | | |]; try done; simpl in Hb.
  - destruct (decide (Q.size q = Q.capacity q)) as [Hfull|Hroom].
    { by rewrite enqueue_full in Hb. }
    rewrite enqueue_eq in Hb by (done || lia). simpl in Hb.
    injection Hb as <- <- _. simpl. split_and!; [done|lia..].
  - destruct (decide (Q.size q = 0)) as [Hz|Hnz].
    { by rewrite dequeue_empty in Hb. }
    rewrite dequeue_eq in Hb by (done || lia). simpl in Hb.
    injection Hb as <- <- _. simpl. split_and!; [done|lia..].
Qed.

(** The other calls leave the queue alone and wake nobody, except
    Shutdown. *)
Lemma body_quiet o q q' w r :
  (∀ c, waits_in c o = false) → o ≠ Shutdown →
  body o q = unlock q' w r → q' = q ∧ w = [].
Proof.
  intros Hw Ho. destruct o as [x| | | |]; simpl; try done.
  - by specialize (Hw not_full).
  - by specialize (Hw not_empty).
  - by intros [= <- <- _].
  - by intros [= <- <- _].
Qed.

Lemma waits_in_none o :
  (∃ c, waits_in c o = true) ∨ (∀ c, waits_in c o = false).
Proof.
  destruct o; [left; by exists not_full|left; by exists not_empty|..];
    right; by intros [].
Qed.

Lemma other_other c : other (other c) = c.
Proof. by destruct c. Qed.

Lemma step_no_lost_wakeup s l s' :
  sys_wf s → no_lost_wakeup s → step s l s' → no_lost_wakeup s'.
Proof.
  intros [Hwf Hmx] [HA HB] Hstep.
  destruct Hstep as [s t th Hth Hpc Hm|s t th c0 Hth Hpc Hm Hb
                    |s t th q' w r ths' Hth Hpc Hm Hb Hw
                    |s t th c0 Hth Hpc|s t th r Hth Hpc].
  - (* lock *)
    split; simpl.
    + intros t1 th1 c. rewrite (lookup_move _ _ _ _ _ Hth).
      case_decide; [by intros [= <-]|apply HA].
    + intros c Hsus.
      apply (suspended_on_insert _ _ _ _ _ Hth) in Hsus as [?|Hsus]; [done|].
      pose proof (contenders_insert c _ t th (move th InSection) Hth) as Hcnt.
      assert (contender c (move th InSection) = contender c th) as Heq
        by (unfold contender; simpl; by rewrite Hpc).
      specialize (HB c Hsus). lia.
  - (* wait *)
    apply body_wait in Hb as (Hw0 & Hsd & Hsup).
    split; simpl.
    + intros t1 th1 c. rewrite (lookup_move _ _ _ _ _ Hth).
      case_decide; [|apply HA]. intros [= <-]. simpl. by intros [= <-].
    + intros c Hsus. destruct (decide (c = c0)) as [->|Hne]; [lia|].
      apply (suspended_on_insert _ _ _ _ _ Hth) in Hsus as [Hp|Hsus];
        [simpl in Hp; congruence|].
      assert (waits_in c (call th) = false) as Hidle.
      { destruct (cond_cases c c0) as [?| ->]; [done|].
        by apply waits_in_other. }
      destruct (contender_idle c th (Suspended c0) Hidle) as [H1 H2].
      pose proof (contenders_insert c _ t th (move th (Suspended c0)) Hth).
      specialize (HB c Hsus). lia.
  - (* unlock *)
    pose proof (woken_woken_from _ _ _ Hw) as [_ Hfrom].
    assert (∀ t1 th1 c, ths' !! t1 = Some th1 → at_pc th1 = Suspended c →
              ∃ th0, threads s !! t1 = Some th0 ∧ at_pc th0 = Suspended c ∧
                     call th1 = call th0) as Hold.
    { intros t1 th1 c Hth1 Hpc1.
      destruct (Hfrom t1 th1 Hth1) as (th0 & Hth0 & Hcall & Hp).
      destruct Hp as [Hp|[_ Hp]]; [|congruence].
      rewrite (lookup_move _ _ _ _ _ Hth) in Hth0.
      case_decide; [injection Hth0 as <-; simpl in Hp; congruence|].
      exists th0. split_and!; [done|congruence|done]. }
    assert (∀ t1 th1 c, ths' !! t1 = Some th1 → at_pc th1 = Suspended c →
              Q.is_shutdown (shared s) = false ∧ call th ≠ Shutdown) as Hopen.
    { intros t1 th1 c Hth1 Hpc1.
      destruct (Hold _ _ _ Hth1 Hpc1) as (th0 & Hth0 & Hpc0 & _).
      split; [by eapply HA|]. intros Hcall.
      rewrite Hcall in Hb. simpl in Hb. injection Hb as _ <- _.
      apply broadcast_both in Hw as [_ Hno]. by eapply Hno. }
    split; simpl.
    + intros t1 th1 c Hth1 Hpc1.
      destruct (Hold _ _ _ Hth1 Hpc1) as (th0 & Hth0 & Hpc0 & Hcall).
      destruct (Hopen _ _ _ Hth1 Hpc1) as [Hsd Hns].
      split; [rewrite Hcall; by eapply HA|].
      rewrite (body_flag _ _ _ _ _ Hb), Hsd.
      by rewrite bool_decide_eq_false_2.
    + intros c Hsus. pose proof Hsus as (t1 & th1 & Hth1 & Hpc1).
      destruct (Hopen _ _ _ Hth1 Hpc1) as [Hsd Hns].
      pose proof (contenders_insert c _ t th (move th (Unlocked r)) Hth)
        as Hcnt.
      destruct (waits_in_none (call th)) as [[c0 Hc0]|Hnone].
      * (* Enqueue or Dequeue *)
        destruct (body_transfer _ _ _ _ _ c0 Hwf Hsd Hc0 Hb)
          as (-> & Hsup & Hsup').
        inversion Hw as [|c1 w1 ths0 ths1 ths2 Hsig Hnil|]; subst.
        inversion Hnil; subst. clear Hnil Hw.
        assert (contender c0 th = 1%nat) as Hth1c
          by (rewrite contender_here, Hpc by done; done).
        pose proof (contender_move c0 th (Unlocked r) Hc0) as Hth2c.
        cbn beta iota in Hth2c.
        destruct (contender_idle (other c0) th (Unlocked r)
                    (waits_in_other _ _ Hc0)) as [Hth3c Hth4c].
        inversion Hsig as [ths0 Hnob|ths0 t2 th2 Hth2 Hpc2]; subst.
        -- (* nobody to wake *)
           destruct (cond_cases c c0) as [->| ->].
           ++ apply (suspended_on_insert _ _ _ _ _ Hth) in Hsus as [?|Hsus];
                [done|].
              specialize (HB c0 Hsus). lia.
           ++ by destruct (Hnob t1 th1 Hth1).
        -- (* one thread woken *)
           rewrite (lookup_move _ _ _ _ _ Hth) in Hth2.
           case_decide; [injection Hth2 as <-; simpl in Hpc2; congruence|].
           destruct (HA t2 th2 (other c0) Hth2 Hpc2) as [Hw2 _].
           assert (<[t:=move th (Unlocked r)]> (threads s) !! t2 = Some th2)
             as HX2 by (rewrite (lookup_move _ _ _ _ _ Hth); by case_decide).
           pose proof (contenders_insert c _ t2 th2 (move th2 AtLock) HX2)
             as Hcnt2.
           assert (contender (other c0) th2 = 0%nat) as E1
             by (rewrite contender_here, Hpc2 by done; done).
           pose proof (contender_move (other c0) th2 AtLock Hw2) as E2.
           cbn beta iota in E2.
           assert (waits_in c0 (call th2) = false) as Hidle2.
           { rewrite <- (other_other c0). by apply waits_in_other. }
           destruct (contender_idle c0 th2 AtLock Hidle2) as [E3 E4].
           apply (suspended_on_insert _ _ _ _ _ HX2) in Hsus as [?|Hsus];
             [done|].
           apply (suspended_on_insert _ _ _ _ _ Hth) in Hsus as [?|Hsus];
             [done|].
           specialize (HB c Hsus).
           destruct (cond_cases c c0) as [->| ->]; lia.
      * (* IsEmpty or IsShutdown *)
        destruct (body_quiet _ _ _ _ _ Hnone Hns Hb) as [-> ->].
        inversion Hw; subst.
        destruct (contender_idle c th (Unlocked r) (Hnone c)) as [E1 E2].
        apply (suspended_on_insert _ _ _ _ _ Hth) in Hsus as [?|Hsus];
          [done|].
        specialize (HB c Hsus). lia.
  - (* spurious wake-up *)
    split; simpl.
    + intros t1 th1 c. rewrite (lookup_move _ _ _ _ _ Hth).
      case_decide; [by intros [= <-]|apply HA].
    + intros c Hsus.
      apply (suspended_on_insert _ _ _ _ _ Hth) in Hsus as [?|Hsus]; [done|].
      pose proof (contenders_insert c _ t th (move th AtLock) Hth) as Hcnt.
      assert (contender c th = 0%nat) as E1.
      { unfold contender. rewrite Hpc. by destruct (waits_in _ _). }
      specialize (HB c Hsus). lia.
  - (* return *)
    split; simpl.
    + intros t1 th1 c. rewrite (lookup_move _ _ _ _ _ Hth).
      case_decide; [by intros [= <-]|apply HA].
    + intros c Hsus.
      apply (suspended_on_insert _ _ _ _ _ Hth) in Hsus as [?|Hsus]; [done|].
      pose proof (contenders_insert c _ t th (move th (Returned r)) Hth) as Hcnt.
      assert (contender c th = 0%nat) as E1.
      { unfold contender. rewrite Hpc. by destruct (waits_in _ _). }
      assert (contender c (move th (Returned r)) = 0%nat) as E2.
      { unfold contender. simpl. by destruct (waits_in _ _). }
      specialize (HB c Hsus). lia.
Qed.

Lemma steps_no_lost_wakeup n s s' :
  sys_wf s → no_lost_wakeup s → steps n s s' → no_lost_wakeup s'.
Proof.
  intros Hwf Hnl Hsteps.
  induction Hsteps as [s|n s l s1 s2 Hstep _ IH]; [done|].
  apply IH; [by eapply step_wf|by eapply step_no_lost_wakeup].
Qed.

Lemma quiescent_contenders c s : quiescent s → contenders c (threads s) = 0%nat.
Proof.
  unfold quiescent, contenders. induction (threads s) as [|th ths IH];
    intros Hq; [done|].
  cbn [fmap list_fmap sum_list sum_list_with].
  change (list_fmap thread nat (contender c)) with (fmap (M:=list) (contender c)).
  rewrite IH by (intros t th'; apply (Hq (S t))).
  assert (contender c th = 0%nat) as ->; [|done].
  unfold contender. destruct (waits_in _ _); [|done].
  by destruct (Hq 0%nat th eq_refl) as [[c' ->]|[r ->]].
Qed.

(** No wake-up is lost.  In every state that an interleaving of calls on
    a constructed queue can reach, a thread is suspended only inside the
    call that waits on its condition and only while the queue is open, and
    then the free cells (for a suspended enqueuer) or the resident items
    (for a suspended dequeuer) are no more than the awake threads already
    heading for them.  So when nobody is awake inside a call, a suspended
    enqueuer means the queue is full and no dequeuer is suspended, and a
    suspended dequeuer means the queue is empty and no enqueuer is
    suspended: threads wait only for what is really missing. *)
Theorem no_wakeup_lost a capacity h q0 h' calls n s :
  0 < capacity ≤ INT_MAX →
  queue_init a capacity h = (Some q0, h') →
  steps n (initial q0 calls) s →
  no_lost_wakeup s ∧
  (quiescent s →
   (suspended_on not_full (threads s) →
    Q.size (shared s) = capacity ∧ ¬ suspended_on not_empty (threads s)) ∧
   (suspended_on not_empty (threads s) →
    Q.size (shared s) = 0 ∧ ¬ suspended_on not_full (threads s))).
Proof.
  intros Hc Hinit Hsteps. apply queue_init_Some in Hinit as ->.
  pose proof (initial_wf (garbage a) capacity calls Hc) as Hwf0.
  destruct (steps_wf _ _ _ Hwf0 Hsteps) as [[Hwf _] Hcap]. simpl in Hcap.
  assert (no_lost_wakeup s) as Hnl.
  { eapply steps_no_lost_wakeup; [exact Hwf0| |exact Hsteps].
    assert (∀ t th c,
              threads (initial (fresh_queue (garbage a) capacity) calls) !! t
                = Some th → at_pc th ≠ Suspended c) as Hno.
    { intros t th c Hth. simpl in Hth. rewrite list_lookup_fmap in Hth.
      destruct (calls !! t); [|done]. by injection Hth as <-. }
    split.
    - intros t th c Hth Hpc. by destruct (Hno t th c Hth).
    - intros c (t & th & Hth & Hpc). by destruct (Hno t th c Hth). }
  split; [done|]. intros Hq.
  destruct Hnl as [_ HB]. destruct Hwf as (_ & _ & Hs & _).
  rewrite Hcap in Hs.
  assert (suspended_on not_full (threads s) → Q.size (shared s) = capacity)
    as Hfull.
  { intros Hsus. specialize (HB _ Hsus).
    rewrite quiescent_contenders in HB by done. simpl in HB. lia. }
  assert (suspended_on not_empty (threads s) → Q.size (shared s) = 0)
    as Hempty.
  { intros Hsus. specialize (HB _ Hsus).
    rewrite quiescent_contenders in HB by done. simpl in HB. lia. }
  split.
  - intros Hsus. split; [by apply Hfull|].
    intros Hsus'. specialize (Hfull Hsus). specialize (Hempty Hsus'). lia.
  - intros Hsus. split; [by apply Hempty|].
    intros Hsus'. specialize (Hfull Hsus'). specialize (Hempty Hsus). lia.
Qed.

Lemma no_wakeup_lost_witness :
  ∃ s, steps 2 handoff_start s ∧
       suspended_on not_empty (threads s) ∧ no_lost_wakeup s.
Proof.
  destruct handoff_two_steps as (s & Hsteps & Hsus).
  exists s. split_and!; [done..|].
  apply (no_wakeup_lost generous 1 ∅ _ _ [Enqueue 11; Dequeue] 2 s
           ltac:(unfold INT_MAX; lia)
           (queue_init_success generous 1 ∅ eq_refl eq_refl) Hsteps).
Defined.

Lemma notice_per_shutdown_witness :
  let ops := [Shutdown; Dequeue; Shutdown] in
  let t := run (fresh_queue (garbage generous) 1) ops in
  printed t = replicate (shutdowns (length (returned t)) ops) shutdown_notice ∧
  length (returned t) = 3%nat.
Proof.
  destruct (notice_per_shutdown (fresh_queue (garbage generous) 1)
              [Shutdown; Dequeue; Shutdown]) as [Hp Hl].
  split; [exact Hp|]. apply Hl. reflexivity.
Defined.
